(** * RSVP collection combinators: [map], [filter], [hash] and [rethrow]

    A shallow embedding of [lib/rsvp/map.js], [lib/rsvp/filter.js],
    [lib/rsvp/rethrow.js] and the [hash] module, followed by the properties
    the specification states about them.

    Futures are described by their eventual settlement; user functions by
    their response to an argument given the arguments of their earlier
    invocations; the future returned by [hash] by the single-assignment cell
    its initializer and handlers drive. *)

From Stdlib Require Import ZArith List String Lia.
From stdpp Require Import base option list gmap strings fin_maps.

Local Open Scope Z_scope.

(** ** JavaScript values *)

(** The eventual fate of a future: it never settles, or it settles once, at
    some instant [at_] of the run, with a value or with a reason. The instants
    only order settlements relative to each other. *)
Inductive settlement (V : Type) : Type :=
  | Pending
  | Fulfilled (at_ : nat) (v : V)
  | Rejected (at_ : nat) (reason : V).

Arguments Pending {V}.
Arguments Fulfilled {V} at_ v.
Arguments Rejected {V} at_ reason.

(** Numbers are restricted to integers. Function values carry an identifier
    and no own properties. [VPromise] is an RSVP promise; [VFilterResult] is an
    instance of the private [FilterResult] class of [filter.js];
    [VTypeError] an instance of the built-in [TypeError]. *)
#[warnings="-register-all"]
Inductive value : Type :=
  | VUndefined
  | VNull
  | VBoolean (b : bool)
  | VNumber (n : Z)
  | VString (s : string)
  | VArray (items : list value)
  | VObject (props : list (string * value))
  | VFunction (f : nat)
  | VPromise (s : settlement value)
  | VFilterResult (value_ : value) (returnedSuccessfully : bool)
  | VTypeError (message : string).

(** The outcome of evaluating a call or an expression. *)
Inductive completion (A : Type) : Type :=
  | Normal (a : A)
  | Throw (e : value).

Arguments Normal {A} a.
Arguments Throw {A} e.

(** ToBoolean. *)
Definition truthy (v : value) : bool :=
  match v with
  | VUndefined | VNull => false
  | VBoolean b => b
  | VNumber n => negb (n =? 0)
  | VString s => negb (String.eqb s "")
  | _ => true
  end.

Definition typeof (v : value) : string :=
  match v with
  | VUndefined => "undefined"
  | VBoolean _ => "boolean"
  | VNumber _ => "number"
  | VString _ => "string"
  | VFunction _ => "function"
  | _ => "object"
  end.

(** [x instanceof FilterResult]. *)
Definition instanceof_FilterResult (v : value) : bool :=
  match v with
  | VFilterResult _ _ => true
  | _ => false
  end.

(** Own-property lookup in an object literal. *)
Fixpoint assoc (name : string) (props : list (string * value)) : option value :=
  match props with
  | [] => None
  | (k, v) :: rest => if String.eqb k name then Some v else assoc name rest
  end.

(** The identifier under which the [then] method of RSVP promises is known. *)
Definition Promise_then : nat := 0%nat.

(** [v.then]: reading the property of [null] or [undefined] raises a
    [TypeError]; primitives and arrays have no such property. *)
Definition get_then (v : value) : completion value :=
  match v with
  | VUndefined | VNull => Throw (VTypeError "Cannot read property 'then'")
  | VPromise _ => Normal (VFunction Promise_then)
  | VObject props => Normal (default VUndefined (assoc "then" props))
  | _ => Normal VUndefined
  end.

(** Modelled from the spec: [isFunction] of [./utils], a module outside
    the sources embedded here; the specification calls the test "callable". *)
Definition isFunction (v : value) : bool :=
  match v with
  | VFunction _ => true
  | _ => false
  end.

(** Modelled from the spec: [isArray] of [./utils], a module outside the
    sources embedded here; the specification calls the test "is a sequence". *)
Definition isArray (v : value) : bool :=
  match v with
  | VArray _ => true
  | _ => false
  end.

(** [results.length] and [results[i]] go through the items of an array. *)
Definition array_items (v : value) : list value :=
  match v with
  | VArray items => items
  | _ => []
  end.

Definition function_id (v : value) : nat :=
  match v with
  | VFunction f => f
  | _ => 0%nat
  end.

(** ** Futures and the join primitive *)

Module RSVP.

Section Environment.

(** [call f history x] is what the user function [f] does when applied to [x]
    after having been applied, in this order, to the arguments in [history]:
    it returns a value or raises. A function that ignores [history] is pure. *)
Variable call : nat -> list value -> value -> completion value.

(** [thenable f] is the settlement delivered by an object whose [then]
    property is the user function [f]: such an object is taken to honour the
    contract of a future, calling back at most once. *)
Variable thenable : nat -> settlement value.

(** [foreign_then f history promise onFulfilled] is what the call
    [promise.then(onFulfilled)] returns, or raises, when the [then] property
    of the object [promise] is the user function [f]: any value whatever, not
    necessarily a future. Like the predicate that returned [promise], the
    method may have memory: [history] lists the arguments of the invocations
    of the predicate so far, the one that returned [promise] included. *)
Variable foreign_then : nat -> list value -> value -> (value -> value) -> completion value.

(** The settlement of an object that exposes a callable [then]; [None] for
    every other value. *)
Definition settlement_of (v : value) : option (settlement value) :=
  match v with
  | VPromise s => Some s
  | VObject props =>
      match assoc "then" props with
      | Some (VFunction f) => Some (thenable f)
      | _ => None
      end
  | _ => None
  end.

(** What waiting on an entry of a collection yields: a plain value is
    available at once. *)
Definition awaited (entry : value) : settlement value :=
  match settlement_of entry with
  | Some s => s
  | None => Fulfilled 0 entry
  end.

(** The earliest rejection among settlements; of two rejections at the same
    instant the one at the lower index is delivered first, its handlers
    having been attached first. *)
Fixpoint first_rejection (ss : list (settlement value)) : option (nat * value) :=
  match ss with
  | [] => None
  | Rejected t r :: rest =>
      match first_rejection rest with
      | Some (t', r') => if (t' <? t)%nat then Some (t', r') else Some (t, r)
      | None => Some (t, r)
      end
  | _ :: rest => first_rejection rest
  end.

(** The values of settlements that all fulfilled, with the instant of the
    last one. *)
Fixpoint joined (ss : list (settlement value)) : option (nat * list value) :=
  match ss with
  | [] => Some (0%nat, [])
  | Fulfilled t v :: rest =>
      match joined rest with
      | Some (t', vs) => Some (Nat.max t t', v :: vs)
      | None => None
      end
  | _ :: rest => None
  end.

(** Modelled from the spec: the join primitive [all] of [./all], a module
    outside the sources embedded here. "Given an ordered sequence of
    futures-or-values, produces one future that settles with the ordered
    sequence of resolved values once all inputs have settled successfully, or
    rejects with the reason of the first input to fail." The label has no
    behavioural effect. *)
Definition all (promises : list value) (label : value) : settlement value :=
  let ss := List.map awaited promises in
  match first_rejection ss with
  | Some (t, r) => Rejected t r
  | None =>
      match joined ss with
      | Some (t, vs) => Fulfilled t (VArray vs)
      | None => Pending
      end
  end.

(** A settlement that cannot take place before instant [t]. *)
Definition not_before (t : nat) (s : settlement value) : settlement value :=
  match s with
  | Pending => Pending
  | Fulfilled t' v => Fulfilled (Nat.max t t') v
  | Rejected t' r => Rejected (Nat.max t t') r
  end.

(** Modelled from the spec: how the future returned by [then] settles from
    the completion of the handler that ran at instant [t]. A raised error
    becomes the rejection reason; a returned future is adopted; any other
    returned value is the fulfilment value. *)
Definition settle_from (t : nat) (c : completion value) : settlement value :=
  match c with
  | Throw e => Rejected t e
  | Normal v =>
      match settlement_of v with
      | Some s => not_before t s
      | None => Fulfilled t v
      end
  end.

(** Modelled from the spec: the attach-continuation operation [then] of the
    future primitive ([./promise], a module outside the sources embedded
    here), "accepting (onFulfilled, onRejected, label?)". The handlers thread
    a state of type [A]; an absent handler passes the settlement through. A
    handler never runs for a future that stays pending. *)
Definition then_ {A : Type} (s : settlement value)
    (onFulfilled onRejected : option (value -> A -> completion value * A))
    (a : A) : settlement value * A :=
  match s with
  | Pending => (Pending, a)
  | Fulfilled t v =>
      match onFulfilled with
      | Some handler => let (c, a') := handler v a in (settle_from t c, a')
      | None => (Fulfilled t v, a)
      end
  | Rejected t r =>
      match onRejected with
      | Some handler => let (c, a') := handler r a in (settle_from t c, a')
      | None => (Rejected t r, a)
      end
  end.

(** [then] with a fulfilment handler only, for a handler whose evaluation is
    bounded by fuel: [None] when the bound was reached. *)
Definition then_bounded {A : Type} (s : settlement value)
    (onFulfilled : value -> A -> option (completion value * A))
    (a : A) : option (settlement value * A) :=
  match s with
  | Pending => Some (Pending, a)
  | Fulfilled t v =>
      match onFulfilled v a with
      | Some (c, a') => Some (settle_from t c, a')
      | None => None
      end
  | Rejected t r => Some (Rejected t r, a)
  end.

(** ** [lib/rsvp/map.js] *)

(** The loop of the fulfilment handler: [mappedResults.push(mapFn(results[i]))]
    for ascending [i]. [history] lists the arguments [mapFn] was applied to. *)
Fixpoint map_loop (mapFn : nat) (results mappedResults history : list value)
    : completion value * list value :=
  match results with
  | [] => (Normal (VArray mappedResults), history)
  | result :: rest =>
      match call mapFn history result with
      | Normal mapped =>
          map_loop mapFn rest (mappedResults ++ [mapped]) (history ++ [result])
      | Throw e => (Throw e, history ++ [result])
      end
  end.

(** [map(promises, mapFn, label)]: raises, or returns a future, given here by
    its settlement. *)
Definition map (promises mapFn label : value) (history : list value)
    : completion (settlement value) * list value :=
  if negb (isArray promises) then
    (Throw (VTypeError "You must pass an array to map."), history)
  else if negb (isFunction mapFn) then
    (Throw (VTypeError "You must pass a function to map's second argument."), history)
  else
    let (s, history') :=
      then_ (all (array_items promises) label)
        (Some (fun results h => map_loop (function_id mapFn) (array_items results) [] h))
        None history in
    (Normal s, history').

(** ** [lib/rsvp/filter.js] *)

(** [new FilterResult(value, returnedSuccessfully)]: the flag is stored as
    [!!returnedSuccessfully]. *)
Definition FilterResult (value_ returnedSuccessfully : value) : value :=
  VFilterResult value_ (truthy returnedSuccessfully).

(** Modelled from the spec: the future that [then] of a promise of the
    library, settling as [s], returns for a fulfilment handler that returns
    [onFulfilled value]. *)
Definition derived (s : settlement value) (onFulfilled : value -> value) : value :=
  VPromise
    (fst (then_ s (Some (fun value_ (_ : unit) => (Normal (onFulfilled value_), tt)))
            None tt)).

(** [promise.then(onFulfilled)]: on a promise of the library, the derived
    future; on an object whose [then] is a user function, whatever that
    function returns or raises; on anything else a [TypeError]. *)
Definition then_method (history : list value) (promise : value)
    (onFulfilled : value -> value) : completion value :=
  match promise with
  | VPromise s => Normal (derived s onFulfilled)
  | VObject props =>
      match assoc "then" props with
      | Some (VFunction f) => foreign_then f history promise onFulfilled
      | _ => Throw (VTypeError "then is not a function")
      end
  | VUndefined | VNull => Throw (VTypeError "Cannot read property 'then'")
  | _ => Throw (VTypeError "then is not a function")
  end.

(** [FilterResult.fromFilterPromise(promise, originalValue)]: what
    [promise.then(function(value){ return new FilterResult(originalValue,
    value); })] returns. *)
Definition fromFilterPromise (history : list value) (promise originalValue : value)
    : completion value :=
  then_method history promise (fun value_ => FilterResult originalValue value_).

(** [typeof filteredResult === 'object' && isFunction(filteredResult.then)]. *)
Definition returned_promise (filteredResult : value) : completion bool :=
  if String.eqb (typeof filteredResult) "object" then
    match get_then filteredResult with
    | Normal then_property => Normal (isFunction then_property)
    | Throw e => Throw e
    end
  else Normal false.

(** The loop of the fulfilment handler over [results], with the accumulator
    [filteredResults] and the flag [hasPromises]. [history] lists the
    arguments [filterFn] was applied to so far. *)
Fixpoint filter_loop (filterFn : nat) (results filteredResults : list value)
    (hasPromises : bool) (history : list value)
    : completion (list value * bool) * list value :=
  match results with
  | [] => (Normal (filteredResults, hasPromises), history)
  | result :: rest =>
      match result with
      | VFilterResult value_ returnedSuccessfully =>
          if returnedSuccessfully then
            filter_loop filterFn rest (filteredResults ++ [value_]) hasPromises history
          else
            filter_loop filterFn rest filteredResults hasPromises history
      | _ =>
          match call filterFn history result with
          | Throw e => (Throw e, history ++ [result])
          | Normal filteredResult =>
              if truthy filteredResult then
                match returned_promise filteredResult with
                | Throw e => (Throw e, history ++ [result])
                | Normal true =>
                    match fromFilterPromise (history ++ [result]) filteredResult result with
                    | Throw e => (Throw e, history ++ [result])
                    | Normal result' =>
                        filter_loop filterFn rest (filteredResults ++ [result'])
                          true (history ++ [result])
                    end
                | Normal false =>
                    filter_loop filterFn rest (filteredResults ++ [result])
                      hasPromises (history ++ [result])
                end
              else
                filter_loop filterFn rest filteredResults hasPromises (history ++ [result])
          end
      end
  end.

(** What a run of [filter] leaves behind for inspection: the arguments the
    predicate was applied to, in order, and the number of times [filter]
    called itself. *)
Record log : Type := Log { calls : list value; recursions : nat }.

Definition empty_log : log := Log [] 0.

(** [filter(promises, filterFn, label)]. [fuel] bounds the number of times
    [filter] may call itself from its fulfilment handler; the result is [None]
    when that does not suffice. Otherwise the call raises, or returns a
    future, given by its settlement. *)
Fixpoint filter (fuel : nat) (promises filterFn label : value) (lg : log)
    : option (completion (settlement value) * log) :=
  if negb (isArray promises) then
    Some (Throw (VTypeError "You must pass an array to filter."), lg)
  else if negb (isFunction filterFn) then
    Some (Throw (VTypeError "You must pass a function to filter's second argument."), lg)
  else
    match
      then_bounded (all (array_items promises) label)
        (fun results lg0 =>
           let (c, history) :=
             filter_loop (function_id filterFn) (array_items results) [] false (calls lg0) in
           match c with
           | Throw e => Some (Throw e, Log history (recursions lg0))
           | Normal (filteredResults, hasPromises) =>
               if hasPromises then
                 match fuel with
                 | O => None
                 | S fuel' =>
                     match filter fuel' (VArray filteredResults) filterFn label
                             (Log history (S (recursions lg0))) with
                     | Some (Normal s, lg1) => Some (Normal (VPromise s), lg1)
                     | Some (Throw e, lg1) => Some (Throw e, lg1)
                     | None => None
                     end
                 end
               else Some (Normal (VArray filteredResults), Log history (recursions lg0))
           end)
        lg
    with
    | Some (s, lg') => Some (Normal s, lg')
    | None => None
    end.

(** ** The [hash] module *)

(** [Object.keys(object)]: the keys of the mapping, each once, in the
    enumeration order of the mapping. *)
Definition keysOf (object : gmap string value) : list string :=
  (map_to_list object).*1.

(** What the returned future was resolved with: the accumulator [results]
    itself, by reference, or the fresh [{}] of the zero-key case. *)
Inductive resolution : Type :=
  | TheResults
  | EmptyObject.

(** Modelled from the spec: the future under construction, a
    single-assignment cell. *)
Inductive cell : Type :=
  | CPending
  | CFulfilled (with_ : resolution)
  | CRejected (reason : value).

(** The variables the closures of one call of [hash] share: [results],
    [remaining], the keys whose entry had handlers attached, and the future
    being built. *)
Record hash_state : Type := HashState {
  results : gmap string value;
  remaining : Z;
  attached : list string;
  promise : cell
}.

(** Modelled from the spec: the [resolve] and [reject] capabilities handed to
    the initializer; "further settlement attempts are no-ops". *)
Definition resolve (with_ : resolution) (st : hash_state) : hash_state :=
  match promise st with
  | CPending => HashState (results st) (remaining st) (attached st) (CFulfilled with_)
  | _ => st
  end.

Definition reject (reason : value) (st : hash_state) : hash_state :=
  match promise st with
  | CPending => HashState (results st) (remaining st) (attached st) (CRejected reason)
  | _ => st
  end.

(** [results[prop] = value; if (--remaining === 0) resolve(results);] *)
Definition resolveAll (prop : string) (value_ : value) (st : hash_state) : hash_state :=
  let st' :=
    HashState (<[prop := value_]> (results st)) (remaining st - 1) (attached st) (promise st) in
  if remaining st' =? 0 then resolve TheResults st' else st'.

Definition resolver (prop : string) : value -> hash_state -> hash_state :=
  fun value_ => resolveAll prop value_.

(** [promise && isFunction(promise.then)]: the property is read only when the
    left operand is truthy. *)
Definition exposes_then (promise_ : value) : completion bool :=
  if truthy promise_ then
    match get_then promise_ with
    | Normal then_property => Normal (isFunction then_property)
    | Throw e => Throw e
    end
  else Normal false.

(** [promise.then(resolver(prop), reject, "RSVP: RSVP#hash")]: the handlers
    wait for the entry under [prop] to settle. *)
Definition attach (prop : string) (st : hash_state) : hash_state :=
  HashState (results st) (remaining st) (attached st ++ [prop]) (promise st).

(** The [for] loop of the initializer over [keys]. An error raised inside the
    initializer would reject the future under construction. *)
Fixpoint hash_loop (object : gmap string value) (keys : list string) (st : hash_state)
    : hash_state :=
  match keys with
  | [] => st
  | prop :: rest =>
      let promise_ := default VUndefined (object !! prop) in
      match exposes_then promise_ with
      | Throw e => reject e st
      | Normal true => hash_loop object rest (attach prop st)
      | Normal false => hash_loop object rest (resolveAll prop promise_ st)
      end
  end.

(** The entry under [prop] settles and calls the handler attached for it:
    [resolver(prop)] with its value, or [reject] with its reason. *)
Definition deliver (object : gmap string value) (st : hash_state) (prop : string)
    : hash_state :=
  if bool_decide (prop ∈ attached st) then
    match settlement_of (default VUndefined (object !! prop)) with
    | Some (Fulfilled _ v) => resolver prop v st
    | Some (Rejected _ r) => reject r st
    | _ => st
    end
  else st.

(** [hash(object, label)] followed by the settlements of its entries in the
    order [schedule] lists their keys. Handlers attached to a future run
    after the call that attached them has returned, hence after the loop. *)
Definition hash (object : gmap string value) (label : value) (schedule : list string)
    : hash_state :=
  let keys := keysOf object in
  let st := HashState ∅ (Z.of_nat (length keys)) [] CPending in
  let st' :=
    if remaining st =? 0 then resolve EmptyObject st
    else hash_loop object keys st in
  foldl (deliver object) st' schedule.

(** What the future under construction was settled with. *)
Inductive hash_outcome : Type :=
  | StillPending
  | FulfilledWith (mapping : gmap string value)
  | RejectedWith (reason : value).

Definition outcome (st : hash_state) : hash_outcome :=
  match promise st with
  | CPending => StillPending
  | CFulfilled TheResults => FulfilledWith (results st)
  | CFulfilled EmptyObject => FulfilledWith ∅
  | CRejected reason => RejectedWith reason
  end.

(** A mapping as the object it is. *)
Definition object_of (mapping : gmap string value) : value :=
  VObject (map_to_list mapping).

(** The shared variables as the initializer of [hash] leaves them, before
    any handler has run. *)
Definition initializer (object : gmap string value) : hash_state :=
  let keys := keysOf object in
  let st := HashState ∅ (Z.of_nat (length keys)) [] CPending in
  if remaining st =? 0 then resolve EmptyObject st
  else hash_loop object keys st.

(** The deliveries of [schedule] up to the one that settles the future. *)
Fixpoint settling (object : gmap string value) (st : hash_state) (schedule : list string)
    : hash_state :=
  match promise st with
  | CPending =>
      match schedule with
      | [] => st
      | prop :: rest => settling object (deliver object st prop) rest
      end
  | _ => st
  end.

(** What became of a future, instants left aside. *)
Inductive hash_result : Type :=
  | Unsettled
  | FulfilsWith (v : value)
  | RejectsWith (reason : value).

Definition seen (s : settlement value) : hash_result :=
  match s with
  | Pending => Unsettled
  | Fulfilled _ v => FulfilsWith v
  | Rejected _ r => RejectsWith r
  end.

(** Modelled from the spec: what an observer of the future returned by
    [hash(object, label)] sees once the entries have settled as [schedule]
    says. [resolve] settles the future from the value it is given as [then]
    settles a derived future from the value a handler returns
    ([settle_from]): a value that exposes a callable [then], here the
    accumulator when it binds the key [then] to a function, is adopted, the
    future following its settlement; any other value is the fulfilment
    value. The accumulator is read as it is when [resolve] is called;
    [reject] passes the reason on as it is. *)
Definition observed (object : gmap string value) (label : value) (schedule : list string)
    : hash_result :=
  let st := settling object (initializer object) schedule in
  match promise st with
  | CPending => Unsettled
  | CRejected reason => RejectsWith reason
  | CFulfilled EmptyObject => seen (settle_from 0 (Normal (object_of ∅)))
  | CFulfilled TheResults => seen (settle_from 0 (Normal (object_of (results st))))
  end.

End Environment.

(** ** [lib/rsvp/rethrow.js] *)

(** Modelled from the spec: the ambient execution context, as far as
    [rethrow] touches it: the queue of callbacks scheduled with [setTimeout],
    each given by what it does when it runs, and the errors that reached the
    top level unhandled. *)
Record ambient : Type := Ambient {
  timers : list (completion value);
  uncaught : list value
}.

Definition setTimeout (callback : completion value) (env : ambient) : ambient :=
  Ambient (timers env ++ [callback]) (uncaught env).

(** Modelled from the spec: one iteration of the task queue runs the oldest
    scheduled callback; an error it raises has no handler and is reported. *)
Definition turn (env : ambient) : ambient :=
  match timers env with
  | [] => env
  | Normal _ :: rest => Ambient rest (uncaught env)
  | Throw e :: rest => Ambient rest (uncaught env ++ [e])
  end.

(** [local.setTimeout(function() { throw reason; }); throw reason;] *)
Definition rethrow (reason : value) (env : ambient) : completion value * ambient :=
  (Throw reason, setTimeout (Throw reason) env).

End RSVP.

(** ** Vocabulary of the properties *)

(** The value exposes a callable [then] property. *)
Definition callable_then (v : value) : bool :=
  match get_then v with
  | Normal then_property => isFunction then_property
  | Throw _ => false
  end.

(** Environments for the examples: functions that return [undefined], and
    thenables that never call back. *)
Definition call_undefined (f : nat) (history : list value) (x : value) : completion value :=
  Normal VUndefined.

Definition never_settles (f : nat) : settlement value := Pending.

(** A hand-made [then] that does what it likes with the handler, here
    nothing or calling it, and returns [undefined]. *)
Definition then_returns_undefined (f : nat) (history : list value) (promise : value)
    (onFulfilled : value -> value) : completion value :=
  Normal VUndefined.

(** A hand-made [then] that calls the handler with [true] and returns what
    the handler returned. *)
Definition then_calls_back (f : nat) (history : list value) (promise : value)
    (onFulfilled : value -> value) : completion value :=
  Normal (onFulfilled (VBoolean true)).

(** A hand-made [then] that raises. *)
Definition then_raises (f : nat) (history : list value) (promise : value)
    (onFulfilled : value -> value) : completion value :=
  Throw (VString "no").

(** [x => ({ then: function(ok) { ok(true); } })]: a predicate without
    memory whose answer is a hand-made thenable. *)
Definition call_hand_made (f : nat) (history : list value) (x : value)
    : completion value :=
  Normal (VObject [("then", VFunction 1)]).

(** [x => x === "x" ? { then: function(ok) { ok(true); } } : true]. *)
Definition call_hand_made_for_x (f : nat) (history : list value) (x : value)
    : completion value :=
  match x with
  | VString "x" => Normal (VObject [("then", VFunction 1)])
  | _ => Normal (VBoolean true)
  end.

(** [x => { if (x === 2) throw "two"; return { then: ... }; }]. *)
Definition call_thenable_or_throw (f : nat) (history : list value) (x : value)
    : completion value :=
  match x with
  | VNumber 2 => Throw (VString "two")
  | _ => Normal (VObject [("then", VFunction 1)])
  end.

(** A predicate whose answers are of every kind: [1] is kept at once, the
    check of [2] is a promise of the library fulfilled with [true], that of
    [3] a hand-made thenable, anything else is left out at once. *)
Definition call_mixed (f : nat) (history : list value) (x : value)
    : completion value :=
  match x with
  | VNumber 1 => Normal (VBoolean true)
  | VNumber 2 => Normal (VPromise (Fulfilled 1 (VBoolean true)))
  | VNumber 3 => Normal (VObject [("then", VFunction 1)])
  | _ => Normal (VBoolean false)
  end.

(** A predicate with memory: it answers its first invocation with [true] and
    every later one with a future fulfilled with [true]. *)
Definition call_plain_then_future (f : nat) (history : list value) (x : value)
    : completion value :=
  match history with
  | [] => Normal (VBoolean true)
  | _ :: _ => Normal (VPromise (Fulfilled 0 (VBoolean true)))
  end.

(** [x => x > 1]. *)
Definition call_greater_than_one (f : nat) (history : list value) (x : value)
    : completion value :=
  match x with
  | VNumber n => Normal (VBoolean (1 <? n))
  | _ => Normal (VBoolean false)
  end.

(** [x => asyncCheck(x)], where [asyncCheck("alice")] fulfils with [true] and
    the check of anybody else with [false]. *)
Definition call_async_check (f : nat) (history : list value) (x : value)
    : completion value :=
  match x with
  | VString "alice" => Normal (VPromise (Fulfilled 1 (VBoolean true)))
  | _ => Normal (VPromise (Fulfilled 2 (VBoolean false)))
  end.

(** [x => { if (x === 2) throw "two"; return x; }]. *)
Definition call_throw_on_two (f : nat) (history : list value) (x : value)
    : completion value :=
  match x with
  | VNumber 2 => Throw (VString "two")
  | _ => Normal x
  end.



(** [rethrow] called with each of [reasons] in turn, every call raising into
    a handler that absorbs it. *)
Definition rethrow_each (reasons : list value) (env : RSVP.ambient) : RSVP.ambient :=
  foldl (λ env reason, snd (RSVP.rethrow reason env)) env reasons.

(** The error a callback raises when it runs, if any. *)
Definition raised (callback : completion value) : option value :=
  match callback with
  | Throw e => Some e
  | Normal _ => None
  end.


(** [{then: f, a: 1}] for a function [f]. *)
Definition then_and_a : gmap string value :=
  <["then" := VFunction 7]> (<["a" := VNumber 1]> ∅).


(** A predicate that answers at once or later: [1] is kept at once, the
    check of [2] fulfils with [1], that of [3] with [false], those of [4] and
    [5] are refused, that of [6] never completes, anything else is left
    out at once. *)
Definition answer_checks (x : value) : value :=
  match x with
  | VNumber 1 => VBoolean true
  | VNumber 2 => VPromise (Fulfilled 1 (VNumber 1))
  | VNumber 3 => VPromise (Fulfilled 2 (VBoolean false))
  | VNumber 4 => VPromise (Rejected 3 (VString "denied"))
  | VNumber 5 => VPromise (Rejected 5 (VString "late"))
  | VNumber 6 => VPromise Pending
  | _ => VBoolean false
  end.

Definition call_checks (f : nat) (history : list value) (x : value) : completion value :=
  Normal (answer_checks x).

(** Two transforms: function 1 is [x => resolve(x)], any other function is
    [x => [x]]. *)
Definition call_two_stages (f : nat) (history : list value) (x : value)
    : completion value :=
  match f with
  | 1%nat => Normal (VPromise (Fulfilled 1 x))
  | _ => Normal (VArray [x])
  end.
Section Vocabulary.

Context (thenable : nat -> settlement value).

(** A value that is neither an instance of the private class [FilterResult]
    nor an object exposing a callable [then]. *)
Definition plain_value (v : value) : Prop :=
  instanceof_FilterResult v = false ∧ RSVP.settlement_of thenable v = None.

(** An entry a caller can put in a collection: a plain value, or a future
    that, if it fulfils, fulfils with a plain value (a future never fulfils
    with another future, and callers hold no [FilterResult]). *)
Definition user_entry (entry : value) : Prop :=
  ∀ t v, RSVP.awaited thenable entry = Fulfilled t v → plain_value v.

(** The item a joined value of a pass of [filter] carries: the original
    item of a marker, the value itself otherwise. *)
Definition original (result : value) : value :=
  match result with
  | VFilterResult value_ _ => value_
  | _ => result
  end.

(** An entry of a pass of [filter], first or later: what it resolves to
    carries a plain value. *)
Definition pass_entry (entry : value) : Prop :=
  ∀ t result, RSVP.awaited thenable entry = Fulfilled t result → plain_value (original result).

(** The future of the marker of [x] that [fromFilterPromise] obtains from
    an answer that is a promise of the library. *)
Definition marker_future (answer x : value) : value :=
  RSVP.derived thenable (RSVP.awaited thenable answer) (RSVP.FilterResult x).

(** An answer of the predicate of [filter] that is no hand-made thenable: a
    value that exposes no callable [then], or a promise of the library. *)
Definition library_answer (answer : value) : Prop :=
  RSVP.settlement_of thenable answer = None ∨ ∃ s, answer = VPromise s.

(** User code holds no marker but those the handler [fromFilterPromise]
    gives to a hand-made [then] returns: what such a [then] returns for the
    handler of a plain item, if it resolves, resolves to a plain value or to
    a marker of a plain value. *)
Definition returns_pass_entries
    (foreign_then : nat -> list value -> value -> (value -> value) -> completion value) : Prop :=
  ∀ g history promise x entry,
    plain_value x →
    foreign_then g history promise (RSVP.FilterResult x) = Normal entry →
    pass_entry entry.

(** The answer [answer] given for the item [x], after the invocations of the
    predicate listed in [history], is no thenable whose [then] raises when
    [fromFilterPromise] calls it. *)
Definition then_returns
    (foreign_then : nat -> list value -> value -> (value -> value) -> completion value)
    (history : list value) (answer x : value) : Prop :=
  ∀ s, RSVP.settlement_of thenable answer = Some s →
       ∃ entry,
         RSVP.fromFilterPromise thenable foreign_then history answer x = Normal entry.

(** A predicate all of whose answers are library answers. *)
Definition answers_of_library
    (call : nat -> list value -> value -> completion value) (f : nat) : Prop :=
  ∀ history x answer, call f history x = Normal answer → library_answer answer.

(** [stands_for entry x]: the entry a pass emits for the item [x] is [x]
    itself, or the future of the marker of [x]. *)
Inductive stands_for : value -> value -> Prop :=
  | stands_for_itself (x : value) :
      plain_value x → stands_for x x
  | stands_for_marker (p x : value) :
      plain_value x → stands_for (marker_future p x) x.

(** What an entry of the mapping given to [hash] contributes to the result:
    the value a future fulfils with, the entry itself otherwise. *)
Definition resolved_value (entry : value) : value :=
  match RSVP.settlement_of thenable entry with
  | Some (Fulfilled _ x) => x
  | _ => entry
  end.

Definition resolved (object : gmap string value) : gmap string value :=
  resolved_value <$> object.

(** What holds of the variables shared by the closures of [hash] as long as
    no entry has rejected: the accumulator holds resolved entries,
    [remaining] counts the keys still missing from it, and the future is
    fulfilled, with the accumulator, exactly when none is missing. *)
Definition hash_invariant (object : gmap string value) (st : RSVP.hash_state) : Prop :=
  RSVP.results st ⊆ resolved object ∧
  RSVP.remaining st = Z.of_nat (size object) - Z.of_nat (size (RSVP.results st)) ∧
  RSVP.promise st
  = (if RSVP.remaining st =? 0 then RSVP.CFulfilled RSVP.TheResults else RSVP.CPending).

(** Whether an answer of the predicate of [filter] is a future. *)
Definition answers_later (answer : value) : bool :=
  match RSVP.settlement_of thenable answer with
  | Some _ => true
  | None => false
  end.

(** Whether an answer of the predicate keeps the item in the pass that
    obtained it: a truthy value that is not a future. *)
Definition answers_yes_now (answer : value) : bool :=
  truthy answer && negb (answers_later answer).

(** Whether an answer of the predicate keeps the item in the end: the
    truthiness of the answer, or of the value its future fulfils with. *)
Definition verdict (answer : value) : bool :=
  match RSVP.settlement_of thenable answer with
  | Some (Fulfilled _ v) => truthy v
  | Some _ => false
  | None => truthy answer
  end.

(** What a pass of [filter] emits for the item [x] when the predicate
    answers [answer], a plain value or a promise of the library. *)
Definition emitted (answer x : value) : option value :=
  if truthy answer then
    Some (if answers_later answer then marker_future answer x else x)
  else None.

(** What the entry emitted for [x] resolves to in the next pass, when the
    future of the answer fulfils. *)
Definition emitted_result (answer x : value) : option value :=
  if truthy answer then
    Some (match RSVP.settlement_of thenable answer with
          | Some (Fulfilled _ v) => VFilterResult x (truthy v)
          | _ => x
          end)
  else None.

End Vocabulary.

(** * Properties *)

Section Properties.

Context (call : nat -> list value -> value -> completion value).
Context (thenable : nat -> settlement value).
Context (foreign_then : nat -> list value -> value -> (value -> value) -> completion value).

Lemma marker_future_eq answer x :
  marker_future thenable answer x
  = RSVP.derived thenable (RSVP.awaited thenable answer) (RSVP.FilterResult x).
Proof. reflexivity. Qed.

Lemma resolved_eq object :
  resolved thenable object = resolved_value thenable <$> object.
Proof. reflexivity. Qed.

Lemma resolved_value_eq entry :
  resolved_value thenable entry
  = match RSVP.settlement_of thenable entry with
    | Some (Fulfilled _ x) => x
    | _ => entry
    end.
Proof. reflexivity. Qed.

Abbreviation settlement_of := (RSVP.settlement_of thenable).
Abbreviation awaited := (RSVP.awaited thenable).
Abbreviation all := (RSVP.all thenable).
Abbreviation then_ := (RSVP.then_ thenable).
Abbreviation map := (RSVP.map call thenable).
Abbreviation filter := (RSVP.filter call thenable foreign_then).
Abbreviation filter_loop := (RSVP.filter_loop call thenable foreign_then).
Abbreviation fromFilterPromise := (RSVP.fromFilterPromise thenable foreign_then).
Abbreviation marker_future := (marker_future thenable).
Abbreviation library_answer := (library_answer thenable).
Abbreviation answers_of_library := (answers_of_library thenable call).
Abbreviation returns_pass_entries := (returns_pass_entries thenable foreign_then).
Abbreviation settling := (RSVP.settling thenable).
Abbreviation observed := (RSVP.observed thenable).
Abbreviation then_returns := (then_returns thenable foreign_then).
Abbreviation hash := (RSVP.hash thenable).
Abbreviation deliver := (RSVP.deliver thenable).
Abbreviation plain_value := (plain_value thenable).
Abbreviation user_entry := (user_entry thenable).
Abbreviation pass_entry := (pass_entry thenable).
Abbreviation stands_for := (stands_for thenable).
Abbreviation resolved_value := (resolved_value thenable).
Abbreviation resolved := (resolved thenable).
Abbreviation hash_invariant := (hash_invariant thenable).

(** ** Detection of futures *)

Lemma settlement_of_exposes v s :
  settlement_of v = Some s →
  truthy v = true ∧ typeof v = "object" ∧ ∃ f, get_then v = Normal (VFunction f).
Proof.
  destruct v; simpl; try discriminate.
  - destruct (assoc "then" props) as [[]|] eqn:E; try discriminate.
    intros _. repeat split; eauto.
  - intros _. repeat split; eauto.
Qed.

Lemma exposes_settlement_of v f :
  truthy v = true → get_then v = Normal (VFunction f) → ∃ s, settlement_of v = Some s.
Proof.
  destruct v; simpl; try discriminate; eauto.
  intros _. destruct (assoc "then" props) as [[]|]; simpl; try discriminate; eauto.
Qed.

Lemma exposes_then_spec v :
  RSVP.exposes_then v = Normal (truthy v && callable_then v).
Proof.
  unfold RSVP.exposes_then, callable_then.
  destruct (truthy v) eqn:T; [|done].
  destruct v; simpl in *; try discriminate; done.
Qed.

Lemma returned_promise_settlement_of v :
  truthy v = true →
  RSVP.returned_promise v = Normal (bool_decide (is_Some (settlement_of v))).
Proof.
  unfold RSVP.returned_promise.
  destruct v; simpl; try discriminate; intros _; try done.
  destruct (assoc "then" props) as [[]|]; simpl; done.
Qed.

(** ** [then] *)

(** The bounded form of [then] is [then] when the handler always returns. *)
Lemma then_bounded_total {A : Type} s (handler : value → A → completion value * A) a :
  RSVP.then_bounded thenable s (λ v x, Some (handler v x)) a
  = Some (then_ s (Some handler) None a).
Proof. destruct s; simpl; [done| |done]. by destruct (handler v a). Qed.

(** ** Validation of the arguments *)

(** C6. When the first argument is not an array or the second is not a
    function, [map] and [filter] raise a [TypeError] from the call itself: no
    future is returned (so none is created or rejected), the user function
    is not applied, and [filter] does so whatever its fuel. *)
Theorem map_filter_invalid_arguments_throw
    (promises fn label : value) (history : list value) (fuel : nat) (lg : RSVP.log) :
  isArray promises = false ∨ isFunction fn = false →
  (∃ message, map promises fn label history = (Throw (VTypeError message), history)) ∧
  (∃ message, filter fuel promises fn label lg = Some (Throw (VTypeError message), lg)).
Proof.
  intros H. split.
  - unfold RSVP.map.
    destruct (isArray promises); simpl; [|eauto].
    destruct H as [H|H]; [done|]. rewrite H. simpl. eauto.
  - destruct fuel; simpl;
      (destruct (isArray promises); simpl; [|eauto]);
      (destruct H as [H|H]; [done|]); rewrite H; simpl; eauto.
Qed.

(** ** [rethrow] *)

(** C9. For every reason, [rethrow] completes by raising that reason, never
    normally; it leaves one more callback in the timer queue, behind those
    already there, and reports nothing itself; attached as a rejection
    handler it makes the reason the rejection reason of the derived future;
    and once the callbacks queued earlier have run, the next iteration of
    the queue reports the same reason as an unhandled error. *)
Theorem rethrow_raises_now_and_later (reason : value) (env : RSVP.ambient) :
  let env' := snd (RSVP.rethrow reason env) in
  fst (RSVP.rethrow reason env) = Throw reason ∧
  (∀ v, fst (RSVP.rethrow reason env) ≠ Normal v) ∧
  RSVP.timers env' = RSVP.timers env ++ [Throw reason] ∧
  RSVP.uncaught env' = RSVP.uncaught env ∧
  (∀ t, then_ (Rejected t reason) None (Some RSVP.rethrow) env = (Rejected t reason, env')) ∧
  RSVP.uncaught (Nat.iter (S (length (RSVP.timers env))) RSVP.turn env')
  = RSVP.uncaught (Nat.iter (length (RSVP.timers env)) RSVP.turn env) ++ [reason].
Proof.
  simpl. repeat split; try done.
  destruct env as [ts errs]. simpl.
  revert errs. induction ts as [|c ts IH]; intros errs.
  - reflexivity.
  - change (length (c :: ts)) with (S (length ts)).
    rewrite !Nat.iter_succ_r.
    unfold RSVP.setTimeout in *. simpl in *.
    destruct c; unfold RSVP.turn at 2 4; simpl; apply IH.
Qed.

(** ** The join primitive *)

Lemma awaited_plain v : settlement_of v = None → awaited v = Fulfilled 0 v.
Proof. unfold RSVP.awaited. by intros ->. Qed.

Lemma first_rejection_elem ss t r :
  RSVP.first_rejection ss = Some (t, r) → ∃ j, ss !! j = Some (Rejected t r).
Proof.
  revert t r. induction ss as [|s ss IH]; intros t r; simpl; [done|].
  destruct s as [|t0 v0|t0 r0].
  - intros H. destruct (IH _ _ H) as [j Hj]. by exists (S j).
  - intros H. destruct (IH _ _ H) as [j Hj]. by exists (S j).
  - destruct (RSVP.first_rejection ss) as [[t' r']|] eqn:E.
    + destruct (t' <? t0)%nat.
      * intros [= <- <-]. destruct (IH _ _ eq_refl) as [j Hj]. by exists (S j).
      * intros [= <- <-]. by exists 0%nat.
    + intros [= <- <-]. by exists 0%nat.
Qed.

Lemma first_rejection_earliest ss i t r :
  ss !! i = Some (Rejected t r) →
  (∀ j t' r', ss !! j = Some (Rejected t' r') → j ≠ i →
     (t < t')%nat ∨ (t = t' ∧ (i < j)%nat)) →
  RSVP.first_rejection ss = Some (t, r).
Proof.
  revert i. induction ss as [|s ss IH]; intros i Hi Hmin; [done|].
  destruct i as [|i]; simpl in Hi.
  - injection Hi as ->. simpl.
    destruct (RSVP.first_rejection ss) as [[t' r']|] eqn:E; [|done].
    destruct (first_rejection_elem _ _ _ E) as [j Hj].
    destruct (Hmin (S j) t' r' Hj) as [Hlt|[-> _]]; [done| |].
    + destruct (Nat.ltb_spec t' t); [lia|done].
    + by rewrite Nat.ltb_irrefl.
  - assert (RSVP.first_rejection ss = Some (t, r)) as Hrest.
    { apply (IH i Hi). intros j t' r' Hj Hne.
      destruct (Hmin (S j) t' r' Hj) as [Hlt|[-> Hlt]]; [congruence|by left|].
      right. split; [done|lia]. }
    simpl. destruct s as [|t0 v0|t0 r0]; try done.
    rewrite Hrest.
    destruct (Hmin 0%nat t0 r0 eq_refl) as [Hlt|[_ Hlt]]; [done| |lia].
    by destruct (Nat.ltb_spec t t0); [|lia].
Qed.

Lemma first_rejection_none ss :
  Forall (λ s, ∀ t r, s ≠ Rejected t r) ss → RSVP.first_rejection ss = None.
Proof.
  induction 1 as [|s ss Hs _ IH]; [done|].
  simpl. destruct s; try done. by destruct (Hs at_ reason).
Qed.

Lemma joined_fulfilled ss t vs :
  RSVP.joined ss = Some (t, vs) →
  Forall2 (λ s v, ∃ t', s = Fulfilled t' v) ss vs.
Proof.
  revert t vs. induction ss as [|s ss IH]; intros t vs; simpl.
  - intros [= <- <-]. constructor.
  - destruct s as [|t0 v0|]; try done.
    destruct (RSVP.joined ss) as [[t' vs']|] eqn:E; [|done].
    intros [= <- <-]. constructor; eauto.
Qed.

Lemma joined_some ss :
  Forall (λ s, ∃ t v, s = Fulfilled t v) ss → is_Some (RSVP.joined ss).
Proof.
  induction 1 as [|s ss (t & v & ->) _ [[t' vs] IH]]; simpl; [eauto|].
  rewrite IH. eauto.
Qed.

Lemma joined_rejection_free ss p :
  RSVP.joined ss = Some p → RSVP.first_rejection ss = None.
Proof.
  destruct p as [t vs]. intros H. apply first_rejection_none.
  apply joined_fulfilled in H.
  induction H as [|s v ss vs [t' ->] _ IH]; constructor; [done|exact IH].
Qed.

(** The join fulfils only with the array of what each entry resolved to. *)
Lemma all_fulfilled_inv promises label t v :
  all promises label = Fulfilled t v →
  ∃ results, v = VArray results ∧
    Forall2 (λ entry result, ∃ t', awaited entry = Fulfilled t' result) promises results.
Proof.
  unfold RSVP.all.
  destruct (RSVP.first_rejection _) as [[]|]; [done|].
  destruct (RSVP.joined _) as [[t' vs]|] eqn:E; [|done].
  intros [= <- <-]. exists vs. split; [done|].
  apply joined_fulfilled in E. by apply Forall2_fmap_l in E.
Qed.

(** The join of plain values fulfils at once with those values. *)
Lemma all_plain_values promises label :
  Forall (λ x, settlement_of x = None) promises →
  all promises label = Fulfilled 0 (VArray promises).
Proof.
  intros H. unfold RSVP.all.
  assert (RSVP.joined (List.map awaited promises) = Some (0%nat, promises)) as E.
  { induction H as [|x xs Hx _ IH]; [done|].
    simpl. rewrite (awaited_plain _ Hx), IH. done. }
  by rewrite (joined_rejection_free _ _ E), E.
Qed.

(** The join rejects with the reason of the entry that fails first. *)
Lemma all_first_failure promises label i entry t r :
  promises !! i = Some entry →
  awaited entry = Rejected t r →
  (∀ j entry' t' r', promises !! j = Some entry' → awaited entry' = Rejected t' r' →
     j ≠ i → (t < t')%nat ∨ (t = t' ∧ (i < j)%nat)) →
  all promises label = Rejected t r.
Proof.
  intros Hi He Hmin. unfold RSVP.all.
  rewrite (first_rejection_earliest _ i t r); [done| |].
  - change (List.map awaited promises) with (awaited <$> promises).
    by rewrite list_lookup_fmap, Hi, <- He.
  - intros j t' r'. change (List.map awaited promises) with (awaited <$> promises).
    rewrite list_lookup_fmap.
    destruct (promises !! j) as [entry'|] eqn:Ej; [|done].
    simpl. intros [= E]. eauto.
Qed.

(** ** [map] *)

Lemma map_unfold items f label history :
  map (VArray items) (VFunction f) label history
  = let (s, history') :=
      then_ (all items label)
        (Some (λ results h, RSVP.map_loop call f (array_items results) [] h))
        None history in
    (Normal s, history').
Proof. reflexivity. Qed.

Lemma map_loop_returns f (g : value → value) results mappedResults history :
  (∀ h x, x ∈ results → call f h x = Normal (g x)) →
  RSVP.map_loop call f results mappedResults history
  = (Normal (VArray (mappedResults ++ (g <$> results))), history ++ results).
Proof.
  revert mappedResults history.
  induction results as [|x results IH]; intros acc h Hg; simpl.
  - by rewrite !app_nil_r.
  - rewrite Hg by left.
    rewrite IH by (intros; apply Hg; by right).
    by rewrite <- !app_assoc.
Qed.

Lemma map_loop_raises f pre x post e mappedResults history :
  (∀ j y, pre !! j = Some y → ∃ v, call f (history ++ take j pre) y = Normal v) →
  call f (history ++ pre) x = Throw e →
  RSVP.map_loop call f (pre ++ x :: post) mappedResults history
  = (Throw e, history ++ pre ++ [x]).
Proof.
  revert mappedResults history.
  induction pre as [|y pre IH]; intros acc h Hpre Hx; simpl.
  - rewrite app_nil_r in Hx. by rewrite Hx.
  - destruct (Hpre 0%nat y eq_refl) as [v Hv].
    simpl in Hv. rewrite app_nil_r in Hv. rewrite Hv.
    rewrite IH.
    + by rewrite <- app_assoc.
    + intros j y' Hj. destruct (Hpre (S j) y' Hj) as [v' Hv'].
      exists v'. simpl in Hv'. by rewrite <- app_assoc.
    + by rewrite <- app_assoc.
Qed.

(** C5. For a sequence [S] of plain values and a transform that behaves on
    them as the function [g], whatever was applied before, [map] returns a
    future fulfilled with a sequence [R] of the length of [S] with
    [R[i] = g(S[i])] at every index, having applied the transform to the
    items of [S] once each, in ascending index order. (The empty sequence is
    covered too.) *)
Theorem map_plain_values_pure_transform
    (S : list value) (f : nat) (g : value → value) (label : value) (history : list value) :
  Forall (λ x, settlement_of x = None) S →
  (∀ h x, x ∈ S → call f h x = Normal (g x)) →
  ∃ R, map (VArray S) (VFunction f) label history
       = (Normal (Fulfilled 0 (VArray R)), history ++ S)
     ∧ length R = length S
     ∧ ∀ i x, S !! i = Some x → R !! i = Some (g x).
Proof.
  intros Hplain Hg. exists (g <$> S).
  rewrite map_unfold, (all_plain_values _ _ Hplain). simpl.
  rewrite (map_loop_returns f g) by done. simpl.
  split; [done|]. split; [by rewrite length_fmap|].
  intros i x Hi. by rewrite list_lookup_fmap, Hi.
Qed.

(** C7. When the joined values are [pre ++ x :: post], the transform returns
    on every value of [pre] and raises [e] on [x], the call of [map] itself
    completes normally, and the future it returns rejects with [e]; the
    transform is not applied to [post]. *)
Theorem map_transform_error_rejects
    (promises : list value) (f : nat) (label : value) (history : list value)
    (t : nat) (pre post : list value) (x e : value) :
  all promises label = Fulfilled t (VArray (pre ++ x :: post)) →
  (∀ j y, pre !! j = Some y → ∃ v, call f (history ++ take j pre) y = Normal v) →
  call f (history ++ pre) x = Throw e →
  map (VArray promises) (VFunction f) label history
  = (Normal (Rejected t e), history ++ pre ++ [x]).
Proof.
  intros Hall Hpre Hx.
  rewrite map_unfold, Hall. simpl.
  by rewrite (map_loop_raises f pre x post e).
Qed.

(** ** [hash]: how an entry is classified *)


(** ** [filter]: one pass *)

Lemma filter_not_fulfilled fuel items f label lg :
  (∀ t v, all items label ≠ Fulfilled t v) →
  filter fuel (VArray items) (VFunction f) label lg = Some (Normal (all items label), lg).
Proof.
  intros H. destruct fuel; simpl; destruct (all items label); simpl; try done;
    by destruct (H at_ v).
Qed.

Lemma filter_fulfilled fuel items f label lg t results :
  all items label = Fulfilled t (VArray results) →
  filter fuel (VArray items) (VFunction f) label lg
  = match filter_loop f results [] false (RSVP.calls lg) with
    | (Throw e, history) =>
        Some (Normal (Rejected t e), RSVP.Log history (RSVP.recursions lg))
    | (Normal (filteredResults, false), history) =>
        Some (Normal (Fulfilled t (VArray filteredResults)),
              RSVP.Log history (RSVP.recursions lg))
    | (Normal (filteredResults, true), history) =>
        match fuel with
        | O => None
        | S fuel' =>
            match filter fuel' (VArray filteredResults) (VFunction f) label
                    (RSVP.Log history (S (RSVP.recursions lg))) with
            | Some (Normal s, lg1) => Some (Normal (RSVP.not_before t s), lg1)
            | Some (Throw e, lg1) => Some (Normal (Rejected t e), lg1)
            | None => None
            end
        end
    end.
Proof.
  intros H.
  destruct fuel; simpl; rewrite H; simpl;
    destruct (filter_loop f results [] false (RSVP.calls lg)) as [[[out [|]]|e] history];
    try done.
  destruct (RSVP.filter _ _ _ _ _ _ _) as [[[s|e] lg1]|]; done.
Qed.

Lemma filter_loop_marker f value_ flag rest filteredResults hasPromises history :
  filter_loop f (VFilterResult value_ flag :: rest) filteredResults hasPromises history
  = filter_loop f rest (if flag then filteredResults ++ [value_] else filteredResults)
      hasPromises history.
Proof. by destruct flag. Qed.

Lemma filter_loop_item f result rest filteredResults hasPromises history :
  instanceof_FilterResult result = false →
  filter_loop f (result :: rest) filteredResults hasPromises history
  = match call f history result with
    | Throw e => (Throw e, history ++ [result])
    | Normal filteredResult =>
        if truthy filteredResult then
          if bool_decide (is_Some (settlement_of filteredResult)) then
            match fromFilterPromise (history ++ [result]) filteredResult result with
            | Throw e => (Throw e, history ++ [result])
            | Normal result' =>
                filter_loop f rest (filteredResults ++ [result']) true (history ++ [result])
            end
          else
            filter_loop f rest (filteredResults ++ [result]) hasPromises (history ++ [result])
        else filter_loop f rest filteredResults hasPromises (history ++ [result])
    end.
Proof.
  intros Hr.
  assert (∀ fr, truthy fr = true →
            match RSVP.returned_promise fr with
            | Throw e => (Throw e, history ++ [result])
            | Normal true =>
                match fromFilterPromise (history ++ [result]) fr result with
                | Throw e => (Throw e, history ++ [result])
                | Normal result' =>
                    filter_loop f rest (filteredResults ++ [result']) true
                      (history ++ [result])
                end
            | Normal false =>
                filter_loop f rest (filteredResults ++ [result]) hasPromises
                  (history ++ [result])
            end
            = if bool_decide (is_Some (settlement_of fr)) then
                match fromFilterPromise (history ++ [result]) fr result with
                | Throw e => (Throw e, history ++ [result])
                | Normal result' =>
                    filter_loop f rest (filteredResults ++ [result']) true
                      (history ++ [result])
                end
              else
                filter_loop f rest (filteredResults ++ [result]) hasPromises
                  (history ++ [result])) as Hrp.
  { intros fr Hfr. rewrite (returned_promise_settlement_of _ Hfr).
    by destruct (bool_decide _). }
  destruct result; try discriminate; simpl;
    (destruct (call f history _) as [fr|e]; [|done]);
    (destruct (truthy fr) eqn:Hfr; [|done]); by apply Hrp.
Qed.

(** The [then] of a promise of the library returns the derived future. *)
Lemma fromFilterPromise_promise h s x :
  fromFilterPromise h (VPromise s) x = Normal (marker_future (VPromise s) x).
Proof. reflexivity. Qed.

Lemma then_returns_library h answer x :
  library_answer answer → then_returns h answer x.
Proof.
  intros [Hnone|[s' ->]] s Hs; [congruence|].
  eexists. apply fromFilterPromise_promise.
Qed.

Lemma fromFilterPromise_library h answer x s :
  library_answer answer →
  settlement_of answer = Some s →
  fromFilterPromise h answer x = Normal (marker_future answer x).
Proof. intros [Hnone|[s' ->]] Hs; [congruence|apply fromFilterPromise_promise]. Qed.

(** The answer of a hand-made thenable is whatever its [then] returns. *)
Lemma fromFilterPromise_hand_made h props g x :
  assoc "then" props = Some (VFunction g) →
  fromFilterPromise h (VObject props) x
  = foreign_then g h (VObject props) (RSVP.FilterResult x).
Proof.
  intros H. unfold RSVP.fromFilterPromise, RSVP.then_method. by rewrite H.
Qed.

Lemma settlement_of_inv answer s :
  settlement_of answer = Some s →
  answer = VPromise s ∨
  ∃ props g, answer = VObject props ∧ assoc "then" props = Some (VFunction g) ∧
    s = thenable g.
Proof.
  destruct answer; try discriminate; simpl.
  - destruct (assoc "then" props) as [[]|] eqn:E; try discriminate.
    intros [= <-]. right. eauto.
  - intros [= <-]. by left.
Qed.

Lemma filter_loop_promise f result rest filteredResults hasPromises history fr s :
  instanceof_FilterResult result = false →
  call f history result = Normal fr →
  settlement_of fr = Some s →
  library_answer fr →
  filter_loop f (result :: rest) filteredResults hasPromises history
  = filter_loop f rest (filteredResults ++ [marker_future fr result])
      true (history ++ [result]).
Proof.
  intros Hr Hc Hs Hl. rewrite filter_loop_item, Hc by done.
  destruct (settlement_of_exposes _ _ Hs) as (-> & _).
  by rewrite Hs, (fromFilterPromise_library _ _ _ _ Hl Hs).
Qed.

Lemma filter_loop_then f result rest filteredResults hasPromises history fr s :
  instanceof_FilterResult result = false →
  call f history result = Normal fr →
  settlement_of fr = Some s →
  filter_loop f (result :: rest) filteredResults hasPromises history
  = match fromFilterPromise (history ++ [result]) fr result with
    | Throw e => (Throw e, history ++ [result])
    | Normal result' =>
        filter_loop f rest (filteredResults ++ [result']) true (history ++ [result])
    end.
Proof.
  intros Hr Hc Hs. rewrite filter_loop_item, Hc by done.
  destruct (settlement_of_exposes _ _ Hs) as (-> & _). by rewrite Hs.
Qed.

Lemma filter_loop_keep f result rest filteredResults hasPromises history fr :
  instanceof_FilterResult result = false →
  call f history result = Normal fr →
  truthy fr = true →
  settlement_of fr = None →
  filter_loop f (result :: rest) filteredResults hasPromises history
  = filter_loop f rest (filteredResults ++ [result]) hasPromises (history ++ [result]).
Proof.
  intros Hr Hc Ht Hs. rewrite filter_loop_item, Hc, Ht, Hs by done.
  by rewrite bool_decide_eq_false_2 by (by intros [? ?]).
Qed.

Lemma filter_loop_drop f result rest filteredResults hasPromises history fr :
  instanceof_FilterResult result = false →
  call f history result = Normal fr →
  truthy fr = false →
  filter_loop f (result :: rest) filteredResults hasPromises history
  = filter_loop f rest filteredResults hasPromises (history ++ [result]).
Proof. intros Hr Hc Ht. by rewrite filter_loop_item, Hc, Ht. Qed.

(** What waiting on the future of a marker yields. *)
Lemma awaited_marker_future p x :
  awaited (marker_future p x)
  = match awaited p with
    | Pending => Pending
    | Fulfilled t v => Fulfilled t (VFilterResult x (truthy v))
    | Rejected t r => Rejected t r
    end.
Proof.
  rewrite marker_future_eq. unfold RSVP.derived, RSVP.awaited at 1. simpl.
  by destruct (awaited p).
Qed.

(** C1. For items [a] and [b] that are plain values, and a predicate that
    answers [a] with a promise of the library fulfilled with [true] and
    then [b] with one fulfilled with [false], [filter] returns a future
    fulfilled with [[a]] alone; it calls itself exactly once, and the
    predicate is applied exactly to [a] and then [b], once each: not again
    in the second pass. *)
Theorem filter_two_items_predicate_futures
    (a b : value) (ta tb : nat) (f : nat) (label : value) (fuel : nat) :
  settlement_of a = None → instanceof_FilterResult a = false →
  settlement_of b = None → instanceof_FilterResult b = false →
  call f [] a = Normal (VPromise (Fulfilled ta (VBoolean true))) →
  call f [a] b = Normal (VPromise (Fulfilled tb (VBoolean false))) →
  ∃ t, filter (S fuel) (VArray [a; b]) (VFunction f) label RSVP.empty_log
       = Some (Normal (Fulfilled t (VArray [a])), RSVP.Log [a; b] 1).
Proof.
  intros Ha Ia Hb Ib Hca Hcb.
  set (pa := VPromise (Fulfilled ta (VBoolean true))) in *.
  set (pb := VPromise (Fulfilled tb (VBoolean false))) in *.
  exists (Nat.max 0 (Nat.max ta (Nat.max tb 0))).
  rewrite (filter_fulfilled _ _ _ _ _ 0%nat [a; b])
    by (apply all_plain_values; repeat constructor; done).
  simpl RSVP.calls.
  rewrite (filter_loop_promise _ a _ _ _ _ pa _ Ia Hca eq_refl) by (right; by eexists).
  rewrite (filter_loop_promise _ b _ _ _ _ pb _ Ib Hcb eq_refl) by (right; by eexists).
  cbn [RSVP.filter_loop app RSVP.recursions RSVP.empty_log].
  assert (all [marker_future pa a; marker_future pb b] label
          = Fulfilled (Nat.max ta (Nat.max tb 0))
              (VArray [VFilterResult a true; VFilterResult b false])) as Hall.
  { unfold RSVP.all. simpl List.map.
    by rewrite !awaited_marker_future. }
  rewrite (filter_fulfilled _ _ _ _ _ _ _ Hall).
  by rewrite !filter_loop_marker.
Qed.

(** ** [filter]: markers never reach the caller *)

Lemma instanceof_FilterResult_inv r :
  instanceof_FilterResult r = true → ∃ value_ flag, r = VFilterResult value_ flag.
Proof. destruct r; try discriminate; eauto. Qed.

Lemma original_not_marker r : instanceof_FilterResult r = false → original r = r.
Proof. by destruct r. Qed.

Lemma user_entry_pass_entry entry : user_entry entry → pass_entry entry.
Proof.
  intros H t r Hr. specialize (H t r Hr).
  by rewrite original_not_marker by apply H.
Qed.

Lemma stands_for_pass_entry entry x : stands_for entry x → pass_entry entry.
Proof.
  intros [y Hy|p y Hy] t r.
  - rewrite awaited_plain by apply Hy. intros [= _ <-].
    by rewrite original_not_marker by apply Hy.
  - rewrite awaited_marker_future.
    destruct (awaited p); try done. by intros [= _ <-].
Qed.

Lemma stands_for_original entry x t r :
  stands_for entry x → awaited entry = Fulfilled t r → original r = x.
Proof.
  intros [y Hy|p y Hy].
  - rewrite awaited_plain by apply Hy. intros [= _ <-].
    by rewrite original_not_marker by apply Hy.
  - rewrite awaited_marker_future.
    destruct (awaited p); try done. by intros [= _ <-].
Qed.

Lemma stands_for_originals entries xs results :
  Forall2 stands_for entries xs →
  Forall2 (λ entry result, ∃ t', awaited entry = Fulfilled t' result) entries results →
  original <$> results = xs.
Proof.
  intros H. revert results.
  induction H as [|e x es xs He _ IH]; intros results Hr.
  - by apply Forall2_nil_inv_l in Hr as ->.
  - apply Forall2_cons_inv_l in Hr as (r & rs & [t' Hr] & Hrs & ->).
    simpl. f_equal; [by eapply stands_for_original|by apply IH].
Qed.

Lemma stands_for_plain entries xs : Forall2 stands_for entries xs → Forall plain_value xs.
Proof. induction 1 as [|e x es xs He _ IH]; constructor; [by destruct He|done]. Qed.

(** One pass keeps, in order, some of the items its joined values carry; the
    entries it emits stand for them, and are the items themselves when the
    pass produced no marker. *)
Lemma filter_loop_stands f results :
  answers_of_library f →
  ∀ filteredResults hasPromises history out hasPromises' history',
  Forall (λ r, plain_value (original r)) results →
  filter_loop f results filteredResults hasPromises history
  = (Normal (out, hasPromises'), history') →
  ∃ new xs, out = filteredResults ++ new ∧ Forall2 stands_for new xs ∧
    sublist xs (original <$> results) ∧
    (hasPromises' = false → new = xs) ∧
    (hasPromises = true → hasPromises' = true).
Proof.
  intros Hlib.
  induction results as [|r rest IH]; intros acc hp h out hp' h' Hres Hloop.
  - injection Hloop as <- <- _. exists [], [].
    rewrite app_nil_r.
    split; [done|]. split; [constructor|]. split; [constructor|]. done.
  - apply Forall_cons in Hres as [Hr Hrest].
    destruct (instanceof_FilterResult r) eqn:Hm.
    + apply instanceof_FilterResult_inv in Hm as (o & flag & ->).
      rewrite filter_loop_marker in Hloop.
      destruct (IH _ _ _ _ _ _ Hrest Hloop) as (new & xs & -> & Hst & Hsub & Hnone & Hmono).
      destruct flag.
      * exists (o :: new), (o :: xs). rewrite <- app_assoc.
        repeat split; [|by apply sublist_skip| |done].
        -- constructor; [by apply stands_for_itself|done].
        -- intros E. by rewrite (Hnone E).
      * exists new, xs. repeat split; [done|by apply sublist_cons|done|done].
    + rewrite filter_loop_item in Hloop by done.
      rewrite original_not_marker in Hr by done.
      destruct (call f h r) as [fr|e] eqn:Hc; [|done].
      destruct (truthy fr).
      * destruct (bool_decide (is_Some (settlement_of fr))) eqn:Hfr.
        -- apply bool_decide_eq_true_1 in Hfr as [s Hs].
           rewrite (fromFilterPromise_library _ _ _ _ (Hlib _ _ _ Hc) Hs) in Hloop.
           destruct (IH _ _ _ _ _ _ Hrest Hloop) as (new & xs & -> & Hst & Hsub & Hnone & Hmono).
           exists (marker_future fr r :: new), (r :: xs). rewrite <- app_assoc.
           rewrite fmap_cons, (original_not_marker r) by done.
           repeat split; [|by apply sublist_skip| |by intros _; apply Hmono].
           ++ constructor; [by apply stands_for_marker|done].
           ++ rewrite Hmono by done. discriminate.
        -- destruct (IH _ _ _ _ _ _ Hrest Hloop) as (new & xs & -> & Hst & Hsub & Hnone & Hmono).
           exists (r :: new), (r :: xs). rewrite <- app_assoc.
           rewrite fmap_cons, (original_not_marker r) by done.
           repeat split; [|by apply sublist_skip| |done].
           ++ constructor; [by apply stands_for_itself|done].
           ++ intros E. by rewrite (Hnone E).
      * destruct (IH _ _ _ _ _ _ Hrest Hloop) as (new & xs & -> & Hst & Hsub & Hnone & Hmono).
        exists new, xs. repeat split; [done|by apply sublist_cons|done|done].
Qed.

Lemma not_before_fulfilled t s t' v :
  RSVP.not_before t s = Fulfilled t' v → ∃ t1, s = Fulfilled t1 v.
Proof. destruct s; simpl; try done. intros [= _ <-]. eauto. Qed.

Lemma joined_results_carry_plain entries results :
  Forall pass_entry entries →
  Forall2 (λ entry result, ∃ t', awaited entry = Fulfilled t' result) entries results →
  Forall (λ r, plain_value (original r)) results.
Proof.
  intros He Hr. induction Hr as [|e r es rs [t' Her] _ IH]; [constructor|].
  apply Forall_cons in He as [He Hes]. constructor; [by eapply He|by apply IH].
Qed.

(** Whatever the number of passes, a sequence [filter] fulfils with is made,
    in order, of items the joined values of the first pass carry. *)
Lemma filter_fulfils_with_originals fuel :
  ∀ entries f label lg t v lg',
  answers_of_library f →
  Forall pass_entry entries →
  filter fuel (VArray entries) (VFunction f) label lg = Some (Normal (Fulfilled t v), lg') →
  ∃ out results t0, v = VArray out ∧
    all entries label = Fulfilled t0 (VArray results) ∧
    sublist out (original <$> results) ∧ Forall plain_value out.
Proof.
  induction fuel as [|fuel IH]; intros entries f label lg t v lg' Hlib Hentries Hfilter.
  all: destruct (all entries label) as [|t0 v0|t0 r0] eqn:Hall;
    [rewrite filter_not_fulfilled in Hfilter by (by rewrite Hall); congruence
    | |rewrite filter_not_fulfilled in Hfilter by (by rewrite Hall); congruence].
  all: destruct (all_fulfilled_inv _ _ _ _ Hall) as (results & -> & Hjoined).
  all: rewrite (filter_fulfilled _ _ _ _ _ _ _ Hall) in Hfilter.
  all: pose proof (joined_results_carry_plain _ _ Hentries Hjoined) as Hres.
  all: destruct (filter_loop f results [] false (RSVP.calls lg))
         as [[[out hp]|e] history] eqn:Hloop; [|done].
  all: destruct (filter_loop_stands _ _ Hlib _ _ _ _ _ _ Hres Hloop)
         as (new & xs & Hout & Hst & Hsub & Hnone & _); simpl in Hout; subst out.
  all: destruct hp.
  - done.
  - injection Hfilter as <- <- _. rewrite Hnone in * by done.
    exists xs, results, t0. repeat split; [done|by eapply stands_for_plain].
  - destruct (filter fuel (VArray new) (VFunction f) label _)
      as [[[s|e] lg1]|] eqn:Hrec; [|done|done].
    injection Hfilter as Hs _.
    apply not_before_fulfilled in Hs as [t1 ->].
    assert (Forall pass_entry new) as Hnew.
    { clear -Hst. induction Hst; constructor; [by eapply stands_for_pass_entry|done]. }
    destruct (IH _ _ _ _ _ _ _ Hlib Hnew Hrec)
      as (out' & results' & t0' & -> & Hall' & Hsub' & Hplain).
    destruct (all_fulfilled_inv _ _ _ _ Hall') as (results'' & [= <-] & Hjoined').
    rewrite (stands_for_originals _ _ _ Hst Hjoined') in Hsub'.
    exists out', results, t0. repeat split; [|done].
    by etrans.
  - injection Hfilter as <- <- _. rewrite Hnone in * by done.
    exists xs, results, t0. repeat split; [done|by eapply stands_for_plain].
Qed.

Lemma plain_pass_entry x : plain_value x → pass_entry x.
Proof.
  intros Hx t r. rewrite awaited_plain by apply Hx. intros [= _ <-].
  by rewrite original_not_marker by apply Hx.
Qed.

(** What [fromFilterPromise] obtains from an answer, promise of the library
    or hand-made thenable, is an entry for the next pass. *)
Lemma fromFilterPromise_pass_entry h fr x entry s :
  returns_pass_entries →
  plain_value x →
  settlement_of fr = Some s →
  fromFilterPromise h fr x = Normal entry →
  pass_entry entry.
Proof.
  intros Hforeign Hx Hs.
  destruct (settlement_of_inv _ _ Hs) as [->|(props & g & -> & Hthen & _)].
  - rewrite fromFilterPromise_promise. intros [= <-].
    eapply stands_for_pass_entry. by apply stands_for_marker.
  - rewrite (fromFilterPromise_hand_made _ _ _ _ Hthen). by apply Hforeign.
Qed.

(** Whatever the answers of the predicate: the entries a pass emits are
    entries for the next pass, and plain values when the pass saw no
    thenable answer. *)
Lemma filter_loop_entries f results :
  returns_pass_entries →
  ∀ filteredResults hasPromises history out hasPromises' history',
  Forall (λ r, plain_value (original r)) results →
  filter_loop f results filteredResults hasPromises history
  = (Normal (out, hasPromises'), history') →
  ∃ new, out = filteredResults ++ new ∧ Forall pass_entry new ∧
    (hasPromises' = false → Forall plain_value new) ∧
    (hasPromises = true → hasPromises' = true).
Proof.
  intros Hforeign.
  induction results as [|r rest IH]; intros acc hp h out hp' h' Hres Hloop.
  - injection Hloop as <- <- _. exists []. rewrite app_nil_r.
    split; [done|]. split; [constructor|]. split; [constructor|done].
  - apply Forall_cons in Hres as [Hr Hrest].
    assert (∀ entry h0 hp0,
              pass_entry entry →
              (hp0 = false → plain_value entry) →
              (hp = true → hp0 = true) →
              filter_loop f rest (acc ++ [entry]) hp0 h0 = (Normal (out, hp'), h') →
              ∃ new, out = acc ++ new ∧ Forall pass_entry new ∧
                (hp' = false → Forall plain_value new) ∧
                (hp = true → hp' = true)) as Hpush.
    { intros entry h0 hp0 Hentry Hplain Hhp Hrec.
      destruct (IH _ _ _ _ _ _ Hrest Hrec) as (new & -> & Hnew & Hnone & Hmono).
      exists (entry :: new). rewrite <- app_assoc.
      split; [done|]. split; [by constructor|]. split; [|by intros E; apply Hmono, Hhp].
      intros E. constructor; [|by apply Hnone].
      apply Hplain. destruct hp0; [|done]. by rewrite Hmono in E. }
    destruct (instanceof_FilterResult r) eqn:Hm.
    + apply instanceof_FilterResult_inv in Hm as (o & flag & ->).
      rewrite filter_loop_marker in Hloop.
      destruct flag; [|by eapply IH].
      apply (Hpush o h hp); [by apply plain_pass_entry|done|done|exact Hloop].
    + rewrite filter_loop_item in Hloop by done.
      rewrite original_not_marker in Hr by done.
      destruct (call f h r) as [fr|e] eqn:Hc; [|done].
      destruct (truthy fr); [|by eapply IH].
      destruct (bool_decide (is_Some (settlement_of fr))) eqn:Hfr.
      * apply bool_decide_eq_true_1 in Hfr as [s Hs].
        destruct (fromFilterPromise (h ++ [r]) fr r) as [entry|e] eqn:Hthen; [|done].
        apply (Hpush entry (h ++ [r]) true); [|discriminate|done|exact Hloop].
        by eapply fromFilterPromise_pass_entry.
      * apply (Hpush r (h ++ [r]) hp); [by apply plain_pass_entry|done|done|exact Hloop].
Qed.

(** Whatever the answers and the number of passes, a sequence [filter]
    fulfils with is made of plain values. *)
Lemma filter_fulfils_plain fuel :
  ∀ entries f label lg t v lg',
  returns_pass_entries →
  Forall pass_entry entries →
  filter fuel (VArray entries) (VFunction f) label lg = Some (Normal (Fulfilled t v), lg') →
  ∃ out, v = VArray out ∧ Forall plain_value out.
Proof.
  induction fuel as [|fuel IH]; intros entries f label lg t v lg' Hforeign Hentries Hfilter.
  all: destruct (all entries label) as [|t0 v0|t0 r0] eqn:Hall;
    [rewrite filter_not_fulfilled in Hfilter by (by rewrite Hall); congruence
    | |rewrite filter_not_fulfilled in Hfilter by (by rewrite Hall); congruence].
  all: destruct (all_fulfilled_inv _ _ _ _ Hall) as (results & -> & Hjoined).
  all: rewrite (filter_fulfilled _ _ _ _ _ _ _ Hall) in Hfilter.
  all: pose proof (joined_results_carry_plain _ _ Hentries Hjoined) as Hres.
  all: destruct (filter_loop f results [] false (RSVP.calls lg))
         as [[[out hp]|e] history] eqn:Hloop; [|done].
  all: destruct (filter_loop_entries _ _ Hforeign _ _ _ _ _ _ Hres Hloop)
         as (new & Hout & Hnew & Hnone & _); simpl in Hout; subst out.
  all: destruct hp.
  - done.
  - injection Hfilter as <- <- _. exists new. split; [done|by apply Hnone].
  - destruct (filter fuel (VArray new) (VFunction f) label _)
      as [[[s|e] lg1]|] eqn:Hrec; [|done|done].
    injection Hfilter as Hs _.
    apply not_before_fulfilled in Hs as [t1 ->].
    by eapply IH.
  - injection Hfilter as <- <- _. exists new. split; [done|by apply Hnone].
Qed.

(** C8. When every entry of the input is one a caller can supply, and user
    code holds no marker but those the handler given to a hand-made [then]
    returns, a sequence [filter] fulfils with contains no [FilterResult],
    whatever the predicate answers, promises of the library or hand-made
    thenables, and whatever the number of passes. When every answer is a
    plain value or a promise of the library, the elements are moreover, in
    order, among the values the input resolved to, each marker having been
    replaced by its original item or left out. *)
Theorem filter_result_has_no_marker
    (fuel : nat) (entries : list value) (f : nat) (label : value) (lg lg' : RSVP.log)
    (t : nat) (v : value) :
  Forall user_entry entries →
  returns_pass_entries →
  filter fuel (VArray entries) (VFunction f) label lg = Some (Normal (Fulfilled t v), lg') →
  ∃ out results t0, v = VArray out ∧
    Forall (λ x, instanceof_FilterResult x = false) out ∧
    all entries label = Fulfilled t0 (VArray results) ∧
    (answers_of_library f → sublist out results).
Proof.
  intros Hentries Hforeign Hfilter.
  assert (Forall pass_entry entries) as Hpass
    by (eapply Forall_impl; [done|apply user_entry_pass_entry]).
  destruct (filter_fulfils_plain _ _ _ _ _ _ _ _ Hforeign Hpass Hfilter)
    as (out & -> & Hplain).
  destruct (all entries label) as [|t0 v0|t0 r0] eqn:Hall;
    [rewrite filter_not_fulfilled in Hfilter by (by rewrite Hall); congruence
    | |rewrite filter_not_fulfilled in Hfilter by (by rewrite Hall); congruence].
  destruct (all_fulfilled_inv _ _ _ _ Hall) as (results & -> & Hjoined).
  exists out, results, t0. split; [done|]. split; [|split; [done|]].
  - eapply Forall_impl; [done|]. by intros x [].
  - intros Hlib.
    destruct (filter_fulfils_with_originals _ _ _ _ _ _ _ _ Hlib Hpass Hfilter)
      as (out' & results' & t0' & [= <-] & Hall' & Hsub & _).
    rewrite Hall in Hall'. injection Hall' as _ <-.
    assert (original <$> results = results) as <-; [|done].
    clear -Hentries Hjoined.
    induction Hjoined as [|e r es rs [t' Her] _ IH]; [done|].
    apply Forall_cons in Hentries as [He Hes]. simpl. f_equal; [|by apply IH].
    apply original_not_marker. by apply (He t' r).
Qed.

(** ** [filter]: the recursion *)





(** ** [hash]: the accumulator and the counter *)

Lemma exposes_then_thenable v :
  RSVP.exposes_then v = Normal (bool_decide (is_Some (settlement_of v))).
Proof.
  rewrite exposes_then_spec. f_equal. unfold callable_then.
  destruct v; simpl; rewrite ?andb_false_r; try done.
  destruct (assoc "then" props) as [[]|]; done.
Qed.

Lemma resolved_lookup object k v :
  object !! k = Some v → resolved object !! k = Some (resolved_value v).
Proof. intros H. by rewrite resolved_eq, lookup_fmap, H. Qed.

Lemma resolveAll_invariant object st k x :
  hash_invariant object st →
  RSVP.results st !! k = None →
  resolved object !! k = Some x →
  hash_invariant object (RSVP.resolveAll k x st) ∧
  RSVP.results (RSVP.resolveAll k x st) = <[k:=x]> (RSVP.results st) ∧
  RSVP.attached (RSVP.resolveAll k x st) = RSVP.attached st.
Proof.
  intros (Hsub & Hrem & Hpromise) Hfresh Hk.
  assert (<[k:=x]> (RSVP.results st) ⊆ resolved object) as Hsub'
    by by apply insert_subseteq_l.
  pose proof (map_subseteq_size _ _ Hsub') as Hsize.
  rewrite map_size_insert_None in Hsize by done.
  rewrite resolved_eq, map_size_fmap in Hsize.
  assert ((RSVP.remaining st =? 0) = false) as Hpos by (apply Z.eqb_neq; lia).
  rewrite Hpos in Hpromise.
  unfold RSVP.resolveAll, RSVP.resolve. simpl.
  destruct (RSVP.remaining st - 1 =? 0) eqn:Hz; rewrite Hpromise; simpl;
    (split; [|done]); (split; [done|]); simpl;
    rewrite ?Hz, map_size_insert_None by done; (split; [lia|done]).
Qed.

Lemma hash_loop_invariant object :
  ∀ keys st,
  hash_invariant object st →
  NoDup keys →
  (∀ k, k ∈ keys → is_Some (object !! k) ∧ RSVP.results st !! k = None) →
  hash_invariant object (RSVP.hash_loop object keys st) ∧
  (∀ k, is_Some (RSVP.results (RSVP.hash_loop object keys st) !! k) ↔
        is_Some (RSVP.results st !! k) ∨
        (k ∈ keys ∧ ∃ v, object !! k = Some v ∧ settlement_of v = None)) ∧
  (∀ k, k ∈ RSVP.attached (RSVP.hash_loop object keys st) ↔
        k ∈ RSVP.attached st ∨
        (k ∈ keys ∧ ∃ v s, object !! k = Some v ∧ settlement_of v = Some s)).
Proof.
  induction keys as [|key keys IH]; intros st Hinv Hnodup Hkeys.
  - simpl. split; [done|].
    split; intros k;
      (split; [by left|intros [?|[Hk _]]; [done|by apply elem_of_nil in Hk]]).
  - apply NoDup_cons in Hnodup as [Hkey Hnodup].
    destruct (Hkeys key) as [[v Hv] Hfresh]; [by left|].
    simpl. rewrite Hv. simpl. rewrite exposes_then_thenable.
    destruct (settlement_of v) as [s|] eqn:Hs.
    + rewrite bool_decide_eq_true_2 by eauto.
      destruct (IH (RSVP.attach key st)) as (Hinv' & Hres & Hatt); [done|done| |].
      { intros k Hk. apply Hkeys. by right. }
      split; [done|]. split; intros k.
      * rewrite Hres, elem_of_cons. simpl.
        split; [intros [?|[? ?]]; [by left|right; split; [by right|done]]|].
        intros [?|([->|Hk] & v' & Hv' & Hs')]; [by left|congruence|right; eauto].
      * rewrite Hatt, elem_of_cons. simpl.
        rewrite elem_of_app, list_elem_of_singleton.
        split;
          [|intros [?|[[->|?] ?]]; [by left; left|by left; right|by right]].
        intros [[?| ->]|(Hk & Hrest)]; [by left| |by right; split; [right|]].
        right. split; [by left|eauto].
    + rewrite bool_decide_eq_false_2 by (by intros [? ?]).
      destruct (resolveAll_invariant object st key v Hinv Hfresh) as (Hinv1 & Hres1 & Hatt1).
      { by rewrite (resolved_lookup _ _ _ Hv), resolved_value_eq, Hs. }
      destruct (IH (RSVP.resolveAll key v st)) as (Hinv' & Hres & Hatt); [done|done| |].
      { intros k Hk. split; [apply Hkeys; by right|].
        rewrite Hres1, lookup_insert_ne; [apply Hkeys; by right|].
        intros ->. done. }
      split; [done|]. split; intros k.
      * rewrite Hres, Hres1, lookup_insert_is_Some, elem_of_cons.
        split.
        -- intros [[->|[_ ?]]|(Hk & Hrest)]; [|by left|by right; split; [right|]].
           right. split; [by left|eauto].
        -- intros [?|([->|Hk] & Hrest)]; [|by left; left|by right].
           destruct (decide (key = k)) as [->|Hne]; left; [by left|by right].
      * rewrite Hatt, Hatt1, elem_of_cons.
        split; [intros [?|[? ?]]; [by left|right; split; [by right|done]]|].
        intros [?|([->|Hk] & v' & s' & Hv' & Hs')]; [by left|congruence|right; eauto].
Qed.

Lemma deliver_invariant object st key :
  hash_invariant object st →
  (key ∈ RSVP.attached st → RSVP.results st !! key = None) →
  (∀ v t r, object !! key = Some v → settlement_of v ≠ Some (Rejected t r)) →
  hash_invariant object (deliver object st key) ∧
  RSVP.attached (deliver object st key) = RSVP.attached st ∧
  (∀ k, is_Some (RSVP.results (deliver object st key) !! k) ↔
        is_Some (RSVP.results st !! k) ∨
        (k = key ∧ key ∈ RSVP.attached st ∧
         ∃ v t x, object !! key = Some v ∧ settlement_of v = Some (Fulfilled t x))).
Proof.
  intros Hinv Hfresh Hnot_rejected.
  assert (∀ st', st' = st →
            (∀ v t x, key ∈ RSVP.attached st → object !! key = Some v →
                      settlement_of v ≠ Some (Fulfilled t x)) →
            hash_invariant object st' ∧ RSVP.attached st' = RSVP.attached st ∧
            (∀ k, is_Some (RSVP.results st' !! k) ↔
                  is_Some (RSVP.results st !! k) ∨
                  (k = key ∧ key ∈ RSVP.attached st ∧
                   ∃ v t x, object !! key = Some v ∧
                            settlement_of v = Some (Fulfilled t x)))) as Hsame.
  { intros st' -> Hno. split; [done|]. split; [done|]. intros k.
    split; [by left|]. intros [?|(_ & Hin & v & t & x & Hv & Hs)]; [done|].
    by destruct (Hno v t x). }
  unfold RSVP.deliver. case_bool_decide as Hin; [|by apply Hsame].
  destruct (object !! key) as [v|] eqn:Hv; simpl;
    [|apply Hsame; [done|congruence]].
  destruct (settlement_of v) as [[|t x|t r]|] eqn:Hs.
  - apply Hsame; [done|congruence].
  - unfold RSVP.resolver.
    destruct (resolveAll_invariant object st key x Hinv (Hfresh Hin))
      as (Hinv' & Hres & Hatt).
    { by rewrite (resolved_lookup _ _ _ Hv), resolved_value_eq, Hs. }
    split; [done|]. split; [done|]. intros k.
    rewrite Hres, lookup_insert_is_Some. split.
    + intros [->|[_ ?]]; [|by left]. right. split; [done|]. split; [done|]. eauto.
    + intros [?|(-> & _)]; [|by left].
      destruct (decide (key = k)) as [->|Hne]; [by left|by right].
  - by destruct (Hnot_rejected v t r).
  - apply Hsame; [done|congruence].
Qed.

Lemma deliveries_invariant object :
  ∀ schedule st,
  hash_invariant object st →
  NoDup schedule →
  (∀ k, k ∈ schedule → k ∈ RSVP.attached st → RSVP.results st !! k = None) →
  (∀ k v t r, k ∈ schedule → object !! k = Some v →
              settlement_of v ≠ Some (Rejected t r)) →
  hash_invariant object (foldl (deliver object) st schedule) ∧
  RSVP.attached (foldl (deliver object) st schedule) = RSVP.attached st ∧
  (∀ k, is_Some (RSVP.results (foldl (deliver object) st schedule) !! k) ↔
        is_Some (RSVP.results st !! k) ∨
        (k ∈ schedule ∧ k ∈ RSVP.attached st ∧
         ∃ v t x, object !! k = Some v ∧ settlement_of v = Some (Fulfilled t x))).
Proof.
  induction schedule as [|key schedule IH]; intros st Hinv Hnodup Hfresh Hnot_rejected.
  - simpl. split; [done|]. split; [done|]. intros k.
    split; [by left|]. intros [?|[Hk _]]; [done|by apply elem_of_nil in Hk].
  - apply NoDup_cons in Hnodup as [Hkey Hnodup]. simpl.
    destruct (deliver_invariant object st key Hinv) as (Hinv1 & Hatt1 & Hres1).
    { apply Hfresh. by left. }
    { intros v t r. apply Hnot_rejected. by left. }
    destruct (IH (deliver object st key)) as (Hinv' & Hatt & Hres); [done|done| | |].
    { intros k Hk Hin. rewrite Hatt1 in Hin.
      destruct (RSVP.results (deliver object st key) !! k) as [y|] eqn:Hy; [|done].
      assert (is_Some (RSVP.results (deliver object st key) !! k)) as Hsome by eauto.
      apply Hres1 in Hsome as [[z Hz]|(-> & _)]; [|done].
      rewrite Hfresh in Hz; [done|by right|done]. }
    { intros k v t r Hk. apply Hnot_rejected. by right. }
    split; [done|]. split; [congruence|]. intros k.
    rewrite Hres, Hres1, Hatt1, elem_of_cons. split.
    + intros [[?|(-> & Hrest)]|(Hk & Hrest)]; [by left| |].
      * right. split; [by left|done].
      * right. split; [by right|done].
    + intros [?|([->|Hk] & Hrest)]; [by left; left| |by right].
      left. right. split; [done|done].
Qed.

Lemma resolveAll_promise_settled st k x :
  RSVP.promise st ≠ RSVP.CPending →
  RSVP.promise (RSVP.resolveAll k x st) = RSVP.promise st.
Proof.
  intros H. unfold RSVP.resolveAll, RSVP.resolve. simpl.
  destruct (_ =? 0); [|done]. simpl. by destruct (RSVP.promise st).
Qed.

(** Once the future has been rejected, no later settlement changes it. *)
Lemma deliveries_after_rejection object schedule :
  ∀ st r, RSVP.promise st = RSVP.CRejected r →
  RSVP.promise (foldl (deliver object) st schedule) = RSVP.CRejected r.
Proof.
  induction schedule as [|key schedule IH]; intros st r Hr; [done|].
  simpl. apply IH. unfold RSVP.deliver.
  case_bool_decide; [|done].
  destruct (settlement_of _) as [[|t x|t r']|]; try done.
  - unfold RSVP.resolver. rewrite resolveAll_promise_settled; [done|congruence].
  - unfold RSVP.reject. by rewrite Hr.
Qed.

Lemma keysOf_elem (object : gmap string value) k :
  k ∈ RSVP.keysOf object ↔ is_Some (object !! k).
Proof.
  unfold RSVP.keysOf. rewrite list_elem_of_fmap. split.
  - intros [[k' v] [-> Hkv]]. apply elem_of_map_to_list in Hkv. eauto.
  - intros [v Hv]. exists (k, v). split; [done|]. by apply elem_of_map_to_list.
Qed.

Lemma keysOf_length (object : gmap string value) :
  length (RSVP.keysOf object) = size object.
Proof. unfold RSVP.keysOf. by rewrite length_fmap, length_map_to_list. Qed.

(** The state in which the initializer leaves the closure variables of a
    non-empty mapping: plain entries recorded, futures waited for. *)
Lemma hash_initializer object label schedule :
  size object ≠ 0%nat →
  ∃ st, hash object label schedule = foldl (deliver object) st schedule ∧
    hash_invariant object st ∧
    (∀ k, is_Some (RSVP.results st !! k) ↔
          ∃ v, object !! k = Some v ∧ settlement_of v = None) ∧
    (∀ k, k ∈ RSVP.attached st ↔
          ∃ v s, object !! k = Some v ∧ settlement_of v = Some s).
Proof.
  intros Hsize. unfold RSVP.hash. simpl.
  rewrite keysOf_length.
  destruct (Z.eqb_spec (Z.of_nat (size object)) 0) as [?|_]; [lia|].
  eexists. split; [done|].
  destruct (hash_loop_invariant object (RSVP.keysOf object)
              (RSVP.HashState ∅ (Z.of_nat (size object)) [] RSVP.CPending))
    as (Hinv & Hres & Hatt).
  - split; [apply map_empty_subseteq|]. simpl. rewrite map_size_empty.
    split; [lia|]. by destruct (Z.eqb_spec (Z.of_nat (size object)) 0) as [?|_]; [lia|].
  - apply NoDup_fst_map_to_list.
  - intros k Hk. split; [by apply keysOf_elem|]. simpl. apply lookup_empty.
  - split; [done|]. split; intros k.
    + rewrite Hres. simpl. rewrite lookup_empty. split.
      * intros [[? ?]|[_ ?]]; done.
      * intros (v & Hv & Hs). right. split; [apply keysOf_elem|]; eauto.
    + rewrite Hatt. simpl. split.
      * intros [Hk|[_ ?]]; [by apply elem_of_nil in Hk|done].
      * intros (v & s & Hv & Hs). right. split; [apply keysOf_elem|]; eauto.
Qed.

Lemma deliveries_nothing_attached object schedule :
  ∀ st, RSVP.attached st = [] → foldl (deliver object) st schedule = st.
Proof.
  induction schedule as [|key schedule IH]; intros st Hst; [done|].
  simpl. assert (deliver object st key = st) as ->; [|by apply IH].
  unfold RSVP.deliver. rewrite bool_decide_eq_false_2; [done|].
  rewrite Hst. apply not_elem_of_nil.
Qed.

Lemma hash_empty label schedule :
  RSVP.outcome (hash ∅ label schedule) = RSVP.FulfilledWith ∅.
Proof.
  unfold RSVP.hash.
  assert (RSVP.keysOf ∅ = []) as -> by (unfold RSVP.keysOf; by rewrite map_to_list_empty).
  simpl. by rewrite deliveries_nothing_attached.
Qed.

(** ** [hash]: what the caller observes *)

Lemma assoc_map_to_list (m : gmap string value) k : assoc k (map_to_list m) = m !! k.
Proof.
  assert (∀ l : list (string * value), NoDup l.*1 →
            ∀ v, assoc k l = Some v ↔ (k, v) ∈ l) as H.
  { induction l as [|[k' v'] l IH]; intros Hnd v; simpl.
    - split; [done|]. intros H. by apply elem_of_nil in H.
    - apply NoDup_cons in Hnd as [Hk' Hnd].
      destruct (String.eqb_spec k' k) as [->|Hne].
      + split; [intros [= ->]; by left|].
        intros H. apply elem_of_cons in H as [[= ->]|H]; [done|].
        destruct Hk'. apply list_elem_of_fmap. by exists (k, v).
      + rewrite IH by done. split; [by right|].
        intros H. by apply elem_of_cons in H as [[= -> ->]|H]. }
  destruct (m !! k) as [v|] eqn:Hv.
  - apply H; [apply NoDup_fst_map_to_list|]. by apply elem_of_map_to_list.
  - destruct (assoc k (map_to_list m)) as [v|] eqn:Ha; [|done].
    apply H in Ha; [|apply NoDup_fst_map_to_list].
    apply elem_of_map_to_list in Ha. congruence.
Qed.

(** A mapping is a thenable exactly when it binds [then] to a function. *)
Lemma settlement_of_object_of m :
  settlement_of (RSVP.object_of m)
  = match m !! "then" with
    | Some (VFunction f) => Some (thenable f)
    | _ => None
    end.
Proof. unfold RSVP.object_of. simpl. by rewrite assoc_map_to_list. Qed.

Lemma seen_not_before t s : RSVP.seen (RSVP.not_before t s) = RSVP.seen s.
Proof. by destruct s. Qed.

Lemma hash_unfold object label schedule :
  hash object label schedule = foldl (deliver object) (RSVP.initializer object) schedule.
Proof. reflexivity. Qed.



(** The state in which the initializer leaves the closure variables of a
    non-empty mapping. *)
Lemma initializer_spec object :
  size object ≠ 0%nat →
  hash_invariant object (RSVP.initializer object) ∧
  (∀ k, is_Some (RSVP.results (RSVP.initializer object) !! k) ↔
        ∃ v, object !! k = Some v ∧ settlement_of v = None) ∧
  (∀ k, k ∈ RSVP.attached (RSVP.initializer object) ↔
        ∃ v s, object !! k = Some v ∧ settlement_of v = Some s).
Proof.
  intros Hsize. unfold RSVP.initializer. simpl.
  rewrite keysOf_length.
  destruct (Z.eqb_spec (Z.of_nat (size object)) 0) as [?|_]; [lia|].
  destruct (hash_loop_invariant object (RSVP.keysOf object)
              (RSVP.HashState ∅ (Z.of_nat (size object)) [] RSVP.CPending))
    as (Hinv & Hres & Hatt).
  - split; [apply map_empty_subseteq|]. simpl. rewrite map_size_empty.
    split; [lia|]. by destruct (Z.eqb_spec (Z.of_nat (size object)) 0) as [?|_]; [lia|].
  - apply NoDup_fst_map_to_list.
  - intros k Hk. split; [by apply keysOf_elem|]. simpl. apply lookup_empty.
  - split; [done|]. split; intros k.
    + rewrite Hres. simpl. rewrite lookup_empty. split.
      * intros [[? ?]|[_ ?]]; done.
      * intros (v & Hv & Hs). right. split; [apply keysOf_elem|]; eauto.
    + rewrite Hatt. simpl. split.
      * intros [Hk|[_ ?]]; [by apply elem_of_nil in Hk|done].
      * intros (v & s & Hv & Hs). right. split; [apply keysOf_elem|]; eauto.
Qed.


(** While the invariant holds, the future is fulfilled exactly when every
    key is recorded. *)
Lemma hash_invariant_settled object st :
  hash_invariant object st →
  (RSVP.promise st = RSVP.CFulfilled RSVP.TheResults ∧ RSVP.results st = resolved object) ∨
  (RSVP.promise st = RSVP.CPending ∧ RSVP.results st ≠ resolved object).
Proof.
  intros (Hsub & Hrem & Hpromise). rewrite Hpromise.
  destruct (Z.eqb_spec (RSVP.remaining st) 0) as [Hzero|Hpos].
  - left. split; [done|]. apply map_subseteq_size_eq; [done|].
    rewrite resolved_eq, map_size_fmap. lia.
  - right. split; [done|]. intros Hall. rewrite Hall, resolved_eq, map_size_fmap in Hrem. lia.
Qed.


(** ** [hash]: which entries are awaited *)







(** ** First failure *)

Lemma hash_first_rejection object label before k after entry t r :
  object !! k = Some entry →
  settlement_of entry = Some (Rejected t r) →
  NoDup (before ++ [k]) →
  (∀ k' entry' t' r', k' ∈ before → object !! k' = Some entry' →
                      settlement_of entry' ≠ Some (Rejected t' r')) →
  RSVP.outcome (hash object label (before ++ k :: after)) = RSVP.RejectedWith r.
Proof.
  intros Hk Hentry Hnodup Hbefore.
  apply NoDup_app in Hnodup as (Hnodup & Hnotin & _).
  assert (size object ≠ 0%nat) as Hsize.
  { intros Hzero. apply map_size_empty_inv in Hzero as ->. by rewrite lookup_empty in Hk. }
  destruct (hash_initializer object label (before ++ k :: after) Hsize)
    as (st & -> & Hinv & Hres & Hatt).
  rewrite foldl_app. simpl.
  destruct (deliveries_invariant object before st Hinv Hnodup)
    as ((Hsub & Hrem & Hpromise) & Hatt' & Hres').
  { intros k' _ Hk'. apply Hatt in Hk' as (v & s & Hv & Hs).
    destruct (RSVP.results st !! k') as [y|] eqn:Hy; [|done].
    assert (is_Some (RSVP.results st !! k')) as Hsome by eauto.
    apply Hres in Hsome as (v' & Hv' & Hs'). congruence. }
  { intros k' v t' r' Hk'. by apply Hbefore. }
  set (st' := foldl (deliver object) st before) in *.
  assert (RSVP.results st' !! k = None) as Hunrecorded.
  { destruct (RSVP.results st' !! k) as [y|] eqn:Hy; [|done].
    assert (is_Some (RSVP.results st' !! k)) as Hsome by eauto.
    apply Hres' in Hsome as [Hsome|[Hin _]].
    - apply Hres in Hsome as (v' & Hv' & Hs'). congruence.
    - destruct (Hnotin k Hin). by left. }
  assert (RSVP.promise st' = RSVP.CPending) as Hpending.
  { rewrite Hpromise.
    destruct (Z.eqb_spec (RSVP.remaining st') 0) as [Hzero|_]; [|done].
    assert (RSVP.results st' = resolved object) as Hall.
    { apply map_subseteq_size_eq; [done|].
      rewrite resolved_eq, map_size_fmap. lia. }
    rewrite Hall, (resolved_lookup _ _ _ Hk) in Hunrecorded. done. }
  assert (RSVP.promise (deliver object st' k) = RSVP.CRejected r) as Hrejected.
  { unfold RSVP.deliver. rewrite bool_decide_eq_true_2.
    - rewrite Hk. simpl. rewrite Hentry. unfold RSVP.reject. by rewrite Hpending.
    - rewrite Hatt'. apply Hatt. eauto. }
  unfold RSVP.outcome.
  by rewrite (deliveries_after_rejection object after _ r Hrejected).
Qed.

(** C3. In [map] and in [filter], when the entry at index [i] is rejected, and
    no other entry is rejected before it, the returned future rejects with
    the reason of that entry, the very value, and the user function is never
    applied. In [hash], when the future under [k] is the first to reject,
    after the futures of [before] have settled, the returned future rejects
    with its reason, the very value, whatever settles afterwards, in
    whatever way. *)
Theorem first_failure_rejects_with_its_reason :
  (∀ entries i entry t r f label history fuel lg,
     entries !! i = Some entry →
     awaited entry = Rejected t r →
     (∀ j entry' t' r', entries !! j = Some entry' → awaited entry' = Rejected t' r' →
        j ≠ i → (t < t')%nat ∨ (t = t' ∧ (i < j)%nat)) →
     map (VArray entries) (VFunction f) label history = (Normal (Rejected t r), history) ∧
     filter fuel (VArray entries) (VFunction f) label lg = Some (Normal (Rejected t r), lg)) ∧
  (∀ object label before k after entry t r,
     object !! k = Some entry →
     settlement_of entry = Some (Rejected t r) →
     NoDup (before ++ [k]) →
     (∀ k' entry' t' r', k' ∈ before → object !! k' = Some entry' →
                         settlement_of entry' ≠ Some (Rejected t' r')) →
     RSVP.outcome (hash object label (before ++ k :: after)) = RSVP.RejectedWith r).
Proof.
  split.
  - intros entries i entry t r f label history fuel lg Hi Hentry Hfirst.
    pose proof (all_first_failure entries label i entry t r Hi Hentry Hfirst) as Hall.
    split.
    + by rewrite map_unfold, Hall.
    + rewrite filter_not_fulfilled; rewrite Hall; done.
  - intros. by eapply hash_first_rejection.
Qed.

(** * Further properties *)


Lemma answers_later_eq answer :
  answers_later thenable answer
  = match RSVP.settlement_of thenable answer with Some _ => true | None => false end.
Proof. reflexivity. Qed.

Lemma answers_yes_now_eq answer :
  answers_yes_now thenable answer = truthy answer && negb (answers_later thenable answer).
Proof. reflexivity. Qed.

Lemma verdict_eq answer :
  verdict thenable answer
  = match RSVP.settlement_of thenable answer with
    | Some (Fulfilled _ v) => truthy v
    | Some _ => false
    | None => truthy answer
    end.
Proof. reflexivity. Qed.

Lemma emitted_eq answer x :
  emitted thenable answer x
  = if truthy answer then
      Some (if answers_later thenable answer
            then marker_future answer x else x)
    else None.
Proof. reflexivity. Qed.

Lemma emitted_result_eq answer x :
  emitted_result thenable answer x
  = if truthy answer then
      Some (match RSVP.settlement_of thenable answer with
            | Some (Fulfilled _ v) => VFilterResult x (truthy v)
            | _ => x
            end)
    else None.
Proof. reflexivity. Qed.
Abbreviation answers_later := (answers_later thenable).
Abbreviation answers_yes_now := (answers_yes_now thenable).
Abbreviation verdict := (verdict thenable).
Abbreviation emitted := (emitted thenable).
Abbreviation emitted_result := (emitted_result thenable).

(** ** More on the join primitive *)

Lemma all_fulfils promises label results :
  Forall2 (λ entry result, ∃ t', awaited entry = Fulfilled t' result) promises results →
  ∃ t, all promises label = Fulfilled t (VArray results).
Proof.
  intros H.
  assert (∃ t, RSVP.joined (List.map awaited promises) = Some (t, results)) as [t E].
  { induction H as [|e r es rs [t' He] _ [t IH]]; [by exists 0%nat|].
    simpl. rewrite He, IH. eauto. }
  exists t. unfold RSVP.all. by rewrite (joined_rejection_free _ _ E), E.
Qed.

Lemma joined_pending ss : Pending ∈ ss → RSVP.joined ss = None.
Proof.
  induction ss as [|s ss IH]; intros H; [by apply elem_of_nil in H|].
  apply elem_of_cons in H as [<-|H]; [done|].
  simpl. destruct s; try done. by rewrite IH.
Qed.

Lemma all_pending promises label entry :
  entry ∈ promises →
  awaited entry = Pending →
  (∀ entry' t r, entry' ∈ promises → awaited entry' ≠ Rejected t r) →
  all promises label = Pending.
Proof.
  intros Hin Hentry Hnone. unfold RSVP.all.
  rewrite first_rejection_none, joined_pending; [done| |].
  - rewrite <- Hentry. change (List.map awaited promises) with (awaited <$> promises).
    by apply list_elem_of_fmap_2.
  - apply Forall_forall. intros s Hs t r ->.
    change (List.map awaited promises) with (awaited <$> promises) in Hs.
    apply list_elem_of_fmap in Hs as (entry' & Heq & Hin').
    by destruct (Hnone entry' t r Hin').
Qed.

Lemma first_rejection_min ss t r :
  Rejected t r ∈ ss →
  (∀ t' r', Rejected t' r' ∈ ss → (t < t')%nat ∨ (t' = t ∧ r' = r)) →
  RSVP.first_rejection ss = Some (t, r).
Proof.
  induction ss as [|s ss IH]; intros Hin Hmin; [by apply elem_of_nil in Hin|].
  assert (∀ t' r', RSVP.first_rejection ss = Some (t', r') →
            (t < t')%nat ∨ (t' = t ∧ r' = r)) as Hrest.
  { intros t' r' E. destruct (first_rejection_elem _ _ _ E) as [j Hj].
    apply Hmin. right. by eapply list_elem_of_lookup_2. }
  apply elem_of_cons in Hin as [<-|Hin].
  - simpl. destruct (RSVP.first_rejection ss) as [[t' r']|]; [|done].
    destruct (Hrest t' r' eq_refl) as [Hlt|[-> ->]].
    + by destruct (Nat.ltb_spec t' t); [lia|].
    + by destruct (t <? t)%nat.
  - assert (RSVP.first_rejection ss = Some (t, r)) as E.
    { apply IH; [done|]. intros t' r' H. apply Hmin. by right. }
    simpl. destruct s as [|t0 v0|t0 r0]; try done. rewrite E.
    destruct (Hmin t0 r0) as [Hlt|[-> ->]]; [by left| |].
    + by destruct (Nat.ltb_spec t t0); [|lia].
    + by destruct (t <? t)%nat.
Qed.


(** ** [filter]: a predicate described by a function *)

Lemma falsy_answers_now answer : truthy answer = false → settlement_of answer = None.
Proof.
  intros Hf. destruct (settlement_of answer) as [s|] eqn:Hs; [|done].
  destruct (settlement_of_exposes _ _ Hs) as (Ht & _). congruence.
Qed.

(** One pass over values that are not markers, for a predicate that answers
    [x] with [p x]: what it emits, whether it saw a future, and the
    applications of the predicate. *)
Lemma filter_loop_described f (p : value → value) xs :
  ∀ filteredResults hasPromises history,
  Forall (λ x, instanceof_FilterResult x = false) xs →
  (∀ h x, x ∈ xs → call f h x = Normal (p x)) →
  (∀ x, x ∈ xs → library_answer (p x)) →
  filter_loop f xs filteredResults hasPromises history
  = (Normal (filteredResults ++ omap (λ x, emitted (p x) x) xs,
             hasPromises || existsb (λ x, answers_later (p x)) xs),
     history ++ xs).
Proof.
  induction xs as [|x xs IH]; intros acc hp h Hxs Hp Hlib.
  - simpl. by rewrite !app_nil_r, orb_false_r.
  - apply Forall_cons in Hxs as [Hx Hxs].
    rewrite filter_loop_item, (Hp h x) by (done || by left).
    assert (∀ h' y, y ∈ xs → call f h' y = Normal (p y)) as Hp'
      by (intros; apply Hp; by right).
    assert (∀ y, y ∈ xs → library_answer (p y)) as Hlib'
      by (intros; apply Hlib; by right).
    simpl. rewrite emitted_eq, answers_later_eq.
    destruct (truthy (p x)) eqn:Ht.
    + destruct (settlement_of (p x)) as [s|] eqn:Hs.
      * rewrite bool_decide_eq_true_2 by eauto.
        rewrite (fromFilterPromise_library _ _ _ s) by (done || apply Hlib; by left).
        rewrite IH by done. simpl. by rewrite <- !app_assoc, orb_true_r.
      * rewrite bool_decide_eq_false_2 by (by intros [? ?]).
        rewrite IH by done. by rewrite <- !app_assoc.
    + rewrite (falsy_answers_now _ Ht). rewrite IH by done. by rewrite <- !app_assoc.
Qed.

Lemma omap_emitted_now (p : value → value) xs :
  (∀ x, x ∈ xs → settlement_of (p x) = None) →
  omap (λ x, emitted (p x) x) xs = List.filter (λ x, truthy (p x)) xs ∧
  existsb (λ x, answers_later (p x)) xs = false.
Proof.
  induction xs as [|x xs IH]; intros Hnow; [done|].
  destruct IH as [IH1 IH2]; [intros; apply Hnow; by right|].
  simpl. rewrite emitted_eq, answers_later_eq, (Hnow x) by (by left).
  rewrite IH2. split; [|done].
  destruct (truthy (p x)); [f_equal|]; exact IH1.
Qed.

Lemma filter_plain_answers_select_aux
    (fuel : nat) (entries : list value) (f : nat) (p : value → value)
    (label : value) (lg : RSVP.log) (t0 : nat) (xs : list value) :
  all entries label = Fulfilled t0 (VArray xs) →
  Forall (λ x, instanceof_FilterResult x = false) xs →
  (∀ h x, x ∈ xs → call f h x = Normal (p x)) →
  (∀ x, x ∈ xs → settlement_of (p x) = None) →
  filter fuel (VArray entries) (VFunction f) label lg
  = Some (Normal (Fulfilled t0 (VArray (List.filter (λ x, truthy (p x)) xs))),
          RSVP.Log (RSVP.calls lg ++ xs) (RSVP.recursions lg)).
Proof.
  intros Hall Hxs Hp Hnow.
  rewrite (filter_fulfilled _ _ _ _ _ _ _ Hall), (filter_loop_described f p)
    by (done || intros; left; by apply Hnow).
  destruct (omap_emitted_now p xs Hnow) as [-> ->]. done.
Qed.

(** X1. When the join of the entries fulfils with [xs] and the predicate
    answers every [x] of [xs] with [p x], never a future, [filter] returns in
    one pass a future fulfilled with the items of [xs] whose answer is
    truthy, in their order; the predicate has been applied to the items of
    [xs] once each, in order. No fuel is needed. *)
Theorem filter_plain_answers_select
    (fuel : nat) (entries : list value) (f : nat) (p : value → value)
    (label : value) (lg : RSVP.log) (t0 : nat) (xs : list value) :
  all entries label = Fulfilled t0 (VArray xs) →
  Forall (λ x, instanceof_FilterResult x = false) xs →
  (∀ h x, x ∈ xs → call f h x = Normal (p x)) →
  (∀ x, x ∈ xs → settlement_of (p x) = None) →
  filter fuel (VArray entries) (VFunction f) label lg
  = Some (Normal (Fulfilled t0 (VArray (List.filter (λ x, truthy (p x)) xs))),
          RSVP.Log (RSVP.calls lg ++ xs) (RSVP.recursions lg)).
Proof.
  intros Hall Hxs Hp Hnow.
  rewrite (filter_fulfilled _ _ _ _ _ _ _ Hall), (filter_loop_described f p)
    by (done || intros; left; by apply Hnow).
  destruct (omap_emitted_now p xs Hnow) as [Hkept Hnone].
  by rewrite Hkept, Hnone.
Qed.

(** The pass over a prefix on which the predicate returns and no [then]
    of an answer raises. *)
Lemma filter_loop_prefix f pre rest :
  ∀ filteredResults hasPromises history,
  Forall (λ y, instanceof_FilterResult y = false) pre →
  (∀ j y, pre !! j = Some y →
     ∃ v, call f (history ++ take j pre) y = Normal v ∧
          then_returns (history ++ take j pre ++ [y]) v y) →
  ∃ filteredResults' hasPromises',
    filter_loop f (pre ++ rest) filteredResults hasPromises history
    = filter_loop f rest filteredResults' hasPromises' (history ++ pre).
Proof.
  induction pre as [|y pre IH]; intros acc hp h Hm Hpre; cbn [app] in *.
  - exists acc, hp. by rewrite app_nil_r.
  - apply Forall_cons in Hm as [Hy Hm].
    destruct (Hpre 0%nat y eq_refl) as (v & Hv & Hthen).
    simpl in Hv, Hthen. rewrite app_nil_r in Hv.
    rewrite filter_loop_item, Hv by done.
    assert (∀ acc' hp', ∃ acc'' hp'',
              filter_loop f (pre ++ rest) acc' hp' (h ++ [y])
              = filter_loop f rest acc'' hp'' (h ++ y :: pre)) as Hstep.
    { intros acc' hp'.
      destruct (IH acc' hp' (h ++ [y]) Hm) as (acc'' & hp'' & E).
      - intros j y' Hj. destruct (Hpre (S j) y' Hj) as (v' & Hv' & Hthen').
        exists v'. simpl in Hv', Hthen'. by rewrite <- !app_assoc.
      - exists acc'', hp''. by rewrite E, <- app_assoc. }
    destruct (truthy v); [|apply Hstep].
    destruct (bool_decide _) eqn:Hs; [|apply Hstep].
    apply bool_decide_eq_true_1 in Hs as [s Hs].
    destruct (Hthen s Hs) as [entry ->]. apply Hstep.
Qed.

(** X2. When the join fulfils with [pre ++ x :: post], the predicate returns
    on the values of [pre], the [then] of none of its answers raising, and
    raises [e] on [x], the call of [filter] completes normally and the
    future it returns rejects with [e]; the predicate is not applied to
    [post], and [filter] does not call itself, whatever the predicate
    answered before. *)
Theorem filter_predicate_error_rejects
    (fuel : nat) (entries : list value) (f : nat) (label : value) (lg : RSVP.log)
    (t0 : nat) (pre post : list value) (x e : value) :
  all entries label = Fulfilled t0 (VArray (pre ++ x :: post)) →
  Forall (λ y, instanceof_FilterResult y = false) (pre ++ [x]) →
  (∀ j y, pre !! j = Some y →
     ∃ v, call f (RSVP.calls lg ++ take j pre) y = Normal v ∧
          then_returns (RSVP.calls lg ++ take j pre ++ [y]) v y) →
  call f (RSVP.calls lg ++ pre) x = Throw e →
  filter fuel (VArray entries) (VFunction f) label lg
  = Some (Normal (Rejected t0 e),
          RSVP.Log (RSVP.calls lg ++ pre ++ [x]) (RSVP.recursions lg)).
Proof.
  intros Hall Hm Hpre Hx.
  apply Forall_app in Hm as [Hm Hmx]. apply Forall_cons in Hmx as [Hmx _].
  rewrite (filter_fulfilled _ _ _ _ _ _ _ Hall).
  destruct (filter_loop_prefix f pre (x :: post) [] false _ Hm Hpre) as (acc & hp & ->).
  by rewrite filter_loop_item, Hx, <- app_assoc.
Qed.

(** X16. The answer of the predicate may be a hand-made thenable, and
    [fromFilterPromise] calls its [then] inside the pass: when that [then]
    raises [e], the predicate having returned on the values before and no
    earlier [then] having raised, the future [filter] returns rejects with
    [e]; the predicate is not applied to the values after, and [filter]
    does not call itself. *)
Theorem filter_answer_then_error_rejects
    (fuel : nat) (entries : list value) (f : nat) (label : value) (lg : RSVP.log)
    (t0 : nat) (pre post : list value) (x e : value)
    (props : list (string * value)) (g : nat) :
  all entries label = Fulfilled t0 (VArray (pre ++ x :: post)) →
  Forall (λ y, instanceof_FilterResult y = false) (pre ++ [x]) →
  (∀ j y, pre !! j = Some y →
     ∃ v, call f (RSVP.calls lg ++ take j pre) y = Normal v ∧
          then_returns (RSVP.calls lg ++ take j pre ++ [y]) v y) →
  call f (RSVP.calls lg ++ pre) x = Normal (VObject props) →
  assoc "then" props = Some (VFunction g) →
  foreign_then g (RSVP.calls lg ++ pre ++ [x]) (VObject props) (RSVP.FilterResult x)
  = Throw e →
  filter fuel (VArray entries) (VFunction f) label lg
  = Some (Normal (Rejected t0 e),
          RSVP.Log (RSVP.calls lg ++ pre ++ [x]) (RSVP.recursions lg)).
Proof.
  intros Hall Hm Hpre Hx Hthen He.
  apply Forall_app in Hm as [Hm Hmx]. apply Forall_cons in Hmx as [Hmx _].
  rewrite (filter_fulfilled _ _ _ _ _ _ _ Hall).
  destruct (filter_loop_prefix f pre (x :: post) [] false _ Hm Hpre) as (acc & hp & ->).
  rewrite (filter_loop_then f x post acc hp _ (VObject props) (thenable g) Hmx Hx)
    by (simpl; by rewrite Hthen).
  by rewrite (fromFilterPromise_hand_made _ _ _ _ Hthen), <- app_assoc, He.
Qed.

(** ** [filter]: the second pass *)

Lemma awaited_thenable v s : settlement_of v = Some s → awaited v = s.
Proof. unfold RSVP.awaited. by intros ->. Qed.

(** What waiting on an emitted entry yields. *)
Lemma awaited_emitted (p : value → value) x entry :
  settlement_of x = None →
  emitted (p x) x = Some entry →
  awaited entry
  = match settlement_of (p x) with
    | Some Pending => Pending
    | Some (Fulfilled t v) => Fulfilled t (VFilterResult x (truthy v))
    | Some (Rejected t r) => Rejected t r
    | None => Fulfilled 0 x
    end.
Proof.
  intros Hx. rewrite emitted_eq, answers_later_eq.
  destruct (truthy (p x)); [|done].
  destruct (settlement_of (p x)) as [s|] eqn:Hs; intros [= <-].
  - by rewrite awaited_marker_future, (awaited_thenable _ _ Hs).
  - by apply awaited_plain.
Qed.

Lemma emitted_results_joined (p : value → value) xs :
  Forall plain_value xs →
  (∀ x s, x ∈ xs → settlement_of (p x) = Some s → ∃ t v, s = Fulfilled t v) →
  Forall2 (λ entry result, ∃ t', awaited entry = Fulfilled t' result)
    (omap (λ x, emitted (p x) x) xs) (omap (λ x, emitted_result (p x) x) xs).
Proof.
  induction xs as [|x xs IH]; intros Hxs Hfulfil; [constructor|].
  apply Forall_cons in Hxs as [[_ Hx] Hxs].
  assert (Forall2 (λ entry result, ∃ t', awaited entry = Fulfilled t' result)
            (omap (λ x, emitted (p x) x) xs) (omap (λ x, emitted_result (p x) x) xs))
    as Hrest by (apply IH; [done|]; intros; eapply Hfulfil; [by right|done]).
  simpl. destruct (emitted (p x) x) as [entry|] eqn:He.
  - pose proof (awaited_emitted p x entry Hx He) as Ha.
    rewrite emitted_eq in He. rewrite emitted_result_eq.
    destruct (truthy (p x)); [|done].
    constructor; [|exact Hrest].
    destruct (settlement_of (p x)) as [s|] eqn:Hs; [|eauto].
    destruct (Hfulfil x s) as (t & v & ->); [by left|done|eauto].
  - rewrite emitted_eq in He. rewrite emitted_result_eq.
    destruct (truthy (p x)); [done|exact Hrest].
Qed.

(** The pass over what the emitted entries resolved to: markers are kept
    or left out by their flag, without applying the predicate; the items
    kept before are submitted to the predicate again. *)
Lemma filter_loop_second_pass f (p : value → value) xs :
  ∀ filteredResults hasPromises history,
  Forall plain_value xs →
  (∀ h x, x ∈ xs → call f h x = Normal (p x)) →
  (∀ x s, x ∈ xs → settlement_of (p x) = Some s → ∃ t v, s = Fulfilled t v) →
  filter_loop f (omap (λ x, emitted_result (p x) x) xs) filteredResults hasPromises history
  = (Normal (filteredResults ++ List.filter (λ x, verdict (p x)) xs, hasPromises),
     history ++ List.filter (λ x, answers_yes_now (p x)) xs).
Proof.
  induction xs as [|x xs IH]; intros acc hp h Hxs Hp Hfulfil.
  - simpl. by rewrite !app_nil_r.
  - apply Forall_cons in Hxs as [[Hm Hx] Hxs].
    assert (∀ acc' h', filter_loop f (omap (λ x, emitted_result (p x) x) xs) acc' hp h'
              = (Normal (acc' ++ List.filter (λ x, verdict (p x)) xs, hp),
                 h' ++ List.filter (λ x, answers_yes_now (p x)) xs)) as Hrest.
    { intros acc' h'. apply IH; [done| |].
      - intros; apply Hp; by right.
      - intros; eapply Hfulfil; [by right|done]. }
    cbn [omap list_omap List.filter].
    change (list_omap _ _ ?g xs) with (omap g xs).
    rewrite emitted_result_eq, verdict_eq, answers_yes_now_eq, answers_later_eq.
    destruct (truthy (p x)) eqn:Ht.
    + destruct (settlement_of (p x)) as [s|] eqn:Hs.
      * destruct (Hfulfil x s) as (t & v & ->); [by left|done|].
        rewrite filter_loop_marker, Hrest. simpl.
        destruct (truthy v); [by rewrite <- app_assoc|done].
      * rewrite (filter_loop_keep f x _ _ _ _ (p x)); [|done|apply Hp; by left|done|done].
        rewrite Hrest. simpl. by rewrite <- !app_assoc.
    + rewrite (falsy_answers_now _ Ht). simpl. apply Hrest.
Qed.

(** X3. When the join fulfils with plain values [xs], the predicate answers
    every [x] with [p x] whatever it was applied to before, a plain value or
    a promise of the library, some answer is a future and every future
    among the answers fulfils, [filter] calls itself
    once and returns a future fulfilled with the items whose answer, or the
    value the answer fulfilled with, is truthy, in the order of [xs]. The
    items themselves are kept, not the answers. In the second pass the
    predicate is applied again to the items it had answered with a truthy
    value that is no future, and to no other. *)
Theorem filter_future_answers_select
    (fuel : nat) (entries : list value) (f : nat) (p : value → value)
    (label : value) (lg : RSVP.log) (t0 : nat) (xs : list value) :
  all entries label = Fulfilled t0 (VArray xs) →
  Forall plain_value xs →
  (∀ h x, x ∈ xs → call f h x = Normal (p x)) →
  (∀ x, x ∈ xs → library_answer (p x)) →
  (∀ x s, x ∈ xs → settlement_of (p x) = Some s → ∃ t v, s = Fulfilled t v) →
  existsb (λ x, answers_later (p x)) xs = true →
  ∃ t, filter (S fuel) (VArray entries) (VFunction f) label lg
       = Some (Normal (Fulfilled t (VArray (List.filter (λ x, verdict (p x)) xs))),
               RSVP.Log (RSVP.calls lg ++ xs ++ List.filter (λ x, answers_yes_now (p x)) xs)
                 (S (RSVP.recursions lg))).
Proof.
  intros Hall Hxs Hp Hlib Hfulfil Hsome.
  assert (Forall (λ x, instanceof_FilterResult x = false) xs) as Hm
    by (eapply Forall_impl; [done|]; by intros x []).
  rewrite (filter_fulfilled _ _ _ _ _ _ _ Hall), (filter_loop_described f p) by done.
  rewrite Hsome. cbn [orb app].
  destruct (all_fulfils _ label _ (emitted_results_joined p xs Hxs Hfulfil)) as [t1 Hall1].
  rewrite (filter_fulfilled _ _ _ _ _ _ _ Hall1).
  cbn [RSVP.calls RSVP.recursions].
  rewrite (filter_loop_second_pass f p) by done.
  exists (Nat.max t0 t1). cbn [app RSVP.not_before]. by rewrite <- app_assoc.
Qed.

Lemma elem_of_emitted (p : value → value) (xs : list value) entry :
  entry ∈ omap (λ x, emitted (p x) x) xs ↔ ∃ x, x ∈ xs ∧ emitted (p x) x = Some entry.
Proof. apply list_elem_of_omap. Qed.

Lemma emitted_later (p : value → value) x s :
  settlement_of (p x) = Some s →
  emitted (p x) x = Some (marker_future (p x) x).
Proof.
  intros Hs. rewrite emitted_eq, answers_later_eq, Hs.
  by destruct (settlement_of_exposes _ _ Hs) as (-> & _).
Qed.

Lemma existsb_answers_later (p : value → value) (xs : list value) x s :
  x ∈ xs → settlement_of (p x) = Some s →
  existsb (λ x, answers_later (p x)) xs = true.
Proof.
  intros Hx Hs. apply existsb_exists. exists x.
  split; [by apply list_elem_of_In|]. by rewrite answers_later_eq, Hs.
Qed.

(** X4. When the join fulfils with plain values [xs], the predicate answers
    every [x] with [p x], a plain value or a promise of the library, and the
    future answered for [x0] is the first to
    reject among the futures answered, [filter] returns a future that
    rejects with the reason of that future, the very value; it has called
    itself once, and the predicate is not applied again. *)
Theorem filter_answer_rejection_rejects
    (fuel : nat) (entries : list value) (f : nat) (p : value → value)
    (label : value) (lg : RSVP.log) (t0 : nat) (xs : list value)
    (x0 : value) (t : nat) (r : value) :
  all entries label = Fulfilled t0 (VArray xs) →
  Forall plain_value xs →
  (∀ h x, x ∈ xs → call f h x = Normal (p x)) →
  (∀ x, x ∈ xs → library_answer (p x)) →
  x0 ∈ xs →
  settlement_of (p x0) = Some (Rejected t r) →
  (∀ x t' r', x ∈ xs → settlement_of (p x) = Some (Rejected t' r') →
              (t < t')%nat ∨ (t' = t ∧ r' = r)) →
  filter (S fuel) (VArray entries) (VFunction f) label lg
  = Some (Normal (Rejected (Nat.max t0 t) r),
          RSVP.Log (RSVP.calls lg ++ xs) (S (RSVP.recursions lg))).
Proof.
  intros Hall Hxs Hp Hlib Hx0 Hrej Hfirst.
  assert (Forall (λ x, instanceof_FilterResult x = false) xs) as Hm
    by (eapply Forall_impl; [done|]; by intros x []).
  rewrite (filter_fulfilled _ _ _ _ _ _ _ Hall), (filter_loop_described f p) by done.
  rewrite (existsb_answers_later p xs x0 _ Hx0 Hrej). cbn [orb app].
  assert (all (omap (λ x, emitted (p x) x) xs) label = Rejected t r) as Hall1.
  { unfold RSVP.all.
    change (List.map awaited ?l) with (awaited <$> l).
    rewrite (first_rejection_min _ t r); [done| |].
    - apply list_elem_of_fmap. exists (marker_future (p x0) x0). split.
      + by rewrite awaited_marker_future, (awaited_thenable _ _ Hrej).
      + apply elem_of_emitted. exists x0. split; [done|by eapply emitted_later].
    - intros t' r' Hin.
      apply list_elem_of_fmap in Hin as (entry & Hentry & Hin).
      apply elem_of_emitted in Hin as (x & Hx & He).
      rewrite Forall_forall in Hxs. destruct (Hxs x Hx) as [_ Hplain].
      rewrite (awaited_emitted p x entry Hplain He) in Hentry.
      destruct (settlement_of (p x)) as [[|t1 v1|t1 r1]|] eqn:Hs; try done.
      injection Hentry as -> ->. by eapply Hfirst. }
  rewrite filter_not_fulfilled by (by rewrite Hall1).
  by rewrite Hall1.
Qed.

(** X5. When the join fulfils with plain values [xs], the predicate answers
    every [x] with [p x], a plain value or a promise of the library, the
    future answered for [x0] never settles and no
    future among the answers rejects, the future [filter] returns never
    settles either, whatever the other answers are. *)
Theorem filter_answer_pending_waits
    (fuel : nat) (entries : list value) (f : nat) (p : value → value)
    (label : value) (lg : RSVP.log) (t0 : nat) (xs : list value) (x0 : value) :
  all entries label = Fulfilled t0 (VArray xs) →
  Forall plain_value xs →
  (∀ h x, x ∈ xs → call f h x = Normal (p x)) →
  (∀ x, x ∈ xs → library_answer (p x)) →
  x0 ∈ xs →
  settlement_of (p x0) = Some Pending →
  (∀ x t r, x ∈ xs → settlement_of (p x) ≠ Some (Rejected t r)) →
  filter (S fuel) (VArray entries) (VFunction f) label lg
  = Some (Normal Pending, RSVP.Log (RSVP.calls lg ++ xs) (S (RSVP.recursions lg))).
Proof.
  intros Hall Hxs Hp Hlib Hx0 Hpending Hnone.
  assert (Forall (λ x, instanceof_FilterResult x = false) xs) as Hm
    by (eapply Forall_impl; [done|]; by intros x []).
  rewrite (filter_fulfilled _ _ _ _ _ _ _ Hall), (filter_loop_described f p) by done.
  rewrite (existsb_answers_later p xs x0 _ Hx0 Hpending). cbn [orb app].
  assert (all (omap (λ x, emitted (p x) x) xs) label = Pending) as Hall1.
  { apply (all_pending _ _ (marker_future (p x0) x0)).
    - apply elem_of_emitted. exists x0. split; [done|by eapply emitted_later].
    - by rewrite awaited_marker_future, (awaited_thenable _ _ Hpending).
    - intros entry t r Hin Hentry.
      apply elem_of_emitted in Hin as (x & Hx & He).
      rewrite Forall_forall in Hxs. destruct (Hxs x Hx) as [_ Hplain].
      rewrite (awaited_emitted p x entry Hplain He) in Hentry.
      destruct (settlement_of (p x)) as [[|t1 v1|t1 r1]|] eqn:Hs; try done.
      by destruct (Hnone x t1 r1 Hx). }
  rewrite filter_not_fulfilled by (by rewrite Hall1).
  by rewrite Hall1.
Qed.

(** ** [map]: futures among the entries and among the results *)

(** X6. When every entry resolves, the entries to the values [xs], and the
    transform behaves on them as the function [g], [map] returns a future
    fulfilled with [g] of each resolved value, in order. What the transform
    returns is stored as returned: a future among the results stays a
    future, [map] does not wait for it. *)
Theorem map_resolved_entries
    (entries xs : list value) (f : nat) (g : value → value)
    (label : value) (history : list value) :
  Forall2 (λ entry x, ∃ t', awaited entry = Fulfilled t' x) entries xs →
  (∀ h x, x ∈ xs → call f h x = Normal (g x)) →
  ∃ t, map (VArray entries) (VFunction f) label history
       = (Normal (Fulfilled t (VArray (g <$> xs))), history ++ xs).
Proof.
  intros Hentries Hg.
  destruct (all_fulfils _ label _ Hentries) as [t Hall]. exists t.
  rewrite map_unfold, Hall. simpl.
  by rewrite (map_loop_returns f g).
Qed.

(** X7. While an entry never settles and none rejects, the futures [map]
    and [filter] return never settle, and the user function is not applied
    to any entry, not even to those that have resolved. *)
Theorem pending_entry_blocks_map_and_filter
    (entries : list value) (entry : value) (f : nat) (label : value)
    (history : list value) (fuel : nat) (lg : RSVP.log) :
  entry ∈ entries →
  awaited entry = Pending →
  (∀ entry' t r, entry' ∈ entries → awaited entry' ≠ Rejected t r) →
  map (VArray entries) (VFunction f) label history = (Normal Pending, history) ∧
  filter fuel (VArray entries) (VFunction f) label lg = Some (Normal Pending, lg).
Proof.
  intros Hin Hentry Hnone.
  pose proof (all_pending entries label entry Hin Hentry Hnone) as Hall.
  split.
  - by rewrite map_unfold, Hall.
  - rewrite filter_not_fulfilled; rewrite Hall; done.
Qed.

Lemma resolved_values_joined (u : value → value) (S : list value) :
  (∀ x s, x ∈ S → settlement_of (u x) = Some s → ∃ t y, s = Fulfilled t y) →
  Forall2 (λ entry x, ∃ t', awaited entry = Fulfilled t' x)
    (u <$> S) ((λ x, resolved_value (u x)) <$> S).
Proof.
  induction S as [|x S IH]; intros Hfulfil; [constructor|].
  simpl. constructor.
  - rewrite resolved_value_eq. unfold RSVP.awaited.
    destruct (settlement_of (u x)) as [s|] eqn:Hs; [|eauto].
    destruct (Hfulfil x s) as (t & y & ->); [by left|done|eauto].
  - apply IH. intros; eapply Hfulfil; [by right|done].
Qed.

(** X8. [map] over the result of a [map]: for plain values [S], a first
    transform behaving as [u] and a second behaving as [w], the second
    [map] waits for the futures the first transform returned and fulfils with
    [w] of what each [u x] resolved to, in the order of [S]. *)
Theorem map_of_map
    (S : list value) (f1 f2 : nat) (u w : value → value)
    (label : value) (history1 history2 : list value) :
  Forall (λ x, settlement_of x = None) S →
  (∀ h x, x ∈ S → call f1 h x = Normal (u x)) →
  (∀ x s, x ∈ S → settlement_of (u x) = Some s → ∃ t y, s = Fulfilled t y) →
  (∀ h y, call f2 h y = Normal (w y)) →
  ∃ R t,
    map (VArray S) (VFunction f1) label history1
    = (Normal (Fulfilled 0 (VArray R)), history1 ++ S) ∧
    map (VArray R) (VFunction f2) label history2
    = (Normal (Fulfilled t (VArray ((λ x, w (resolved_value (u x))) <$> S))),
       history2 ++ ((λ x, resolved_value (u x)) <$> S)).
Proof.
  intros Hplain Hu Hfulfil Hw.
  destruct (all_fulfils _ label _ (resolved_values_joined u S Hfulfil)) as [t Hall].
  exists (u <$> S), t. split.
  - rewrite map_unfold, (all_plain_values _ _ Hplain). simpl.
    by rewrite (map_loop_returns f1 u).
  - rewrite map_unfold, Hall. simpl.
    rewrite (map_loop_returns f2 w) by (intros; apply Hw).
    by rewrite <- list_fmap_compose.
Qed.

Lemma filter_filter_same {A : Type} (q : A → bool) (l : list A) :
  List.filter q (List.filter q l) = List.filter q l.
Proof.
  induction l as [|x l IH]; [done|].
  simpl. destruct (q x) eqn:Hq; [|done]. simpl. by rewrite Hq, IH.
Qed.

(** X9. Filtering again what [filter] kept changes nothing: for plain
    values [xs] and a predicate answering [x] with [p x], never a future,
    [filter] over the sequence it fulfilled with fulfils with that same
    sequence. *)
Theorem filter_twice_same
    (fuel : nat) (f : nat) (p : value → value) (label : value)
    (lg lg' : RSVP.log) (xs : list value) :
  Forall plain_value xs →
  (∀ h x, x ∈ xs → call f h x = Normal (p x)) →
  (∀ x, x ∈ xs → settlement_of (p x) = None) →
  ∃ ys,
    filter fuel (VArray xs) (VFunction f) label lg
    = Some (Normal (Fulfilled 0 (VArray ys)),
            RSVP.Log (RSVP.calls lg ++ xs) (RSVP.recursions lg)) ∧
    filter fuel (VArray ys) (VFunction f) label lg'
    = Some (Normal (Fulfilled 0 (VArray ys)),
            RSVP.Log (RSVP.calls lg' ++ ys) (RSVP.recursions lg')).
Proof.
  intros Hxs Hp Hnow.
  assert (∀ l : list value, Forall plain_value l →
            all l label = Fulfilled 0 (VArray l) ∧
            Forall (λ x, instanceof_FilterResult x = false) l) as Hplain.
  { intros l Hl. split.
    - apply all_plain_values. eapply Forall_impl; [done|]. by intros x [].
    - eapply Forall_impl; [done|]. by intros x []. }
  set (ys := List.filter (λ x, truthy (p x)) xs).
  assert (∀ y, y ∈ ys → y ∈ xs) as Hsub.
  { intros y Hy. apply list_elem_of_In. apply list_elem_of_In in Hy.
    by apply filter_In in Hy as [? _]. }
  assert (Forall plain_value ys) as Hys.
  { apply Forall_forall. intros y Hy. rewrite Forall_forall in Hxs. by apply Hxs, Hsub. }
  exists ys. split.
  - destruct (Hplain xs Hxs) as [Hall Hm].
    by rewrite (filter_plain_answers_select_aux fuel xs f p label lg 0%nat xs).
  - destruct (Hplain ys Hys) as [Hall Hm].
    rewrite (filter_plain_answers_select_aux fuel ys f p label lg' 0%nat ys); try done.
    + unfold ys. by rewrite filter_filter_same.
    + intros; apply Hp; by apply Hsub.
    + intros; apply Hnow; by apply Hsub.
Qed.

(** ** [hash]: waiting, and counting *)




(** ** [rethrow]: several reasons *)

Lemma turns_run_queue (callbacks : list (completion value)) :
  ∀ errors,
  Nat.iter (length callbacks) RSVP.turn (RSVP.Ambient callbacks errors)
  = RSVP.Ambient [] (errors ++ omap raised callbacks).
Proof.
  induction callbacks as [|c callbacks IH]; intros errors.
  - simpl. by rewrite app_nil_r.
  - change (length (c :: callbacks)) with (S (length callbacks)).
    rewrite Nat.iter_succ_r. destruct c as [v|e]; unfold RSVP.turn at 2; simpl.
    + apply IH.
    + rewrite IH. by rewrite <- app_assoc.
Qed.

Lemma rethrow_each_queue reasons :
  ∀ env,
  rethrow_each reasons env
  = RSVP.Ambient (RSVP.timers env ++ (Throw <$> reasons)) (RSVP.uncaught env).
Proof.
  induction reasons as [|reason reasons IH]; intros [callbacks errors].
  - simpl. by rewrite app_nil_r.
  - unfold rethrow_each in *. simpl. rewrite IH. simpl. by rewrite <- app_assoc.
Qed.

Lemma raised_thrown (reasons : list value) : omap raised (Throw <$> reasons) = reasons.
Proof. induction reasons as [|reason reasons IH]; [done|]. simpl. by f_equal. Qed.

(** X12. Reasons passed to [rethrow] one after the other are queued behind
    the callbacks already scheduled, in the order of the calls, and nothing is
    reported by the calls themselves; once the queue has run, every reason
    has been reported as an unhandled error exactly once, in that order,
    after the errors of the callbacks scheduled earlier. *)
Theorem rethrow_each_reports_in_order (reasons : list value) (env : RSVP.ambient) :
  RSVP.timers (rethrow_each reasons env) = RSVP.timers env ++ (Throw <$> reasons) ∧
  RSVP.uncaught (rethrow_each reasons env) = RSVP.uncaught env ∧
  Nat.iter (length (RSVP.timers (rethrow_each reasons env))) RSVP.turn
    (rethrow_each reasons env)
  = RSVP.Ambient []
      (RSVP.uncaught (Nat.iter (length (RSVP.timers env)) RSVP.turn env) ++ reasons).
Proof.
  rewrite rethrow_each_queue. destruct env as [callbacks errors]. simpl.
  split; [done|]. split; [done|].
  rewrite !turns_run_queue. simpl.
  by rewrite omap_app, raised_thrown, app_assoc.
Qed.

(** ** [hash]: plain values only *)

Lemma settling_settled object st schedule :
  RSVP.promise st ≠ RSVP.CPending → settling object st schedule = st.
Proof. intros H. destruct schedule; simpl; by destruct (RSVP.promise st). Qed.

(** X13. A mapping none of whose entries exposes a callable [then] is
    answered by the initializer alone, whatever settles later: [resolve] is
    given the accumulator, which is then equal to the input. When the
    mapping binds the key [then] to a function, the accumulator is itself a
    thenable and the returned future follows it instead of being fulfilled
    with it; otherwise the returned future is fulfilled with a mapping
    equal to the input. *)
Theorem hash_of_plain_values
    (object : gmap string value) (label : value) (schedule : list string) :
  (∀ k v, object !! k = Some v → settlement_of v = None) →
  RSVP.outcome (hash object label schedule) = RSVP.FulfilledWith object ∧
  observed object label schedule
  = match object !! "then" with
    | Some (VFunction f) => RSVP.seen (thenable f)
    | _ => RSVP.FulfilsWith (RSVP.object_of object)
    end.
Proof.
  intros Hplain.
  destruct (decide (size object = 0%nat)) as [Hzero|Hsize].
  { apply map_size_empty_inv in Hzero as ->. split; [apply hash_empty|].
    unfold RSVP.observed, RSVP.initializer.
    assert (RSVP.keysOf ∅ = []) as ->
      by (unfold RSVP.keysOf; by rewrite map_to_list_empty).
    by destruct schedule. }
  destruct (initializer_spec object Hsize) as (Hinv & Hres & Hatt).
  assert (resolved object = object) as Hsame.
  { rewrite resolved_eq. apply map_eq. intros k. rewrite lookup_fmap.
    destruct (object !! k) as [v|] eqn:Hv; [|done].
    simpl. by rewrite resolved_value_eq, (Hplain k v Hv). }
  assert (RSVP.results (RSVP.initializer object) = object) as Hall.
  { rewrite <- Hsame at 2. apply subseteq_dom_eq; [apply Hinv|].
    intros k Hk. apply elem_of_dom. apply Hres.
    rewrite Hsame in Hk. apply elem_of_dom in Hk as [v Hv]. eauto. }
  assert (RSVP.promise (RSVP.initializer object) = RSVP.CFulfilled RSVP.TheResults)
    as Hpromise.
  { destruct (hash_invariant_settled _ _ Hinv) as [[Hp _]|[_ Hne]]; [done|].
    destruct Hne. by rewrite Hall. }
  split.
  - rewrite hash_unfold, deliveries_nothing_attached.
    + unfold RSVP.outcome. by rewrite Hpromise, Hall.
    + destruct (RSVP.attached (RSVP.initializer object)) as [|k ks] eqn:Ha; [done|].
      assert (k ∈ k :: ks) as Hk by (by left).
      apply Hatt in Hk as (v & s & Hv & Hs). rewrite (Hplain k v Hv) in Hs. done.
  - unfold RSVP.observed. rewrite settling_settled by congruence.
    rewrite Hpromise, Hall. unfold RSVP.settle_from.
    rewrite settlement_of_object_of.
    destruct (object !! "then") as [[]|]; try done.
    apply seen_not_before.
Qed.

(** ** [map]: a transform with memory *)

Lemma map_loop_in_order f xs :
  ∀ mappedResults history,
  (∀ i x, xs !! i = Some x → ∃ y, call f (history ++ take i xs) x = Normal y) →
  ∃ R, RSVP.map_loop call f xs mappedResults history
       = (Normal (VArray (mappedResults ++ R)), history ++ xs) ∧
    length R = length xs ∧
    ∀ i x, xs !! i = Some x →
      ∃ y, R !! i = Some y ∧ call f (history ++ take i xs) x = Normal y.
Proof.
  induction xs as [|x xs IH]; intros acc h Hcalls.
  - exists []. simpl. rewrite !app_nil_r. by repeat split.
  - destruct (Hcalls 0%nat x eq_refl) as [y Hy].
    simpl in Hy. rewrite app_nil_r in Hy.
    destruct (IH (acc ++ [y]) (h ++ [x])) as (R & Hloop & Hlen & HR).
    { intros i x' Hi. destruct (Hcalls (S i) x' Hi) as [y' Hy'].
      exists y'. simpl in Hy'. by rewrite <- app_assoc. }
    exists (y :: R). simpl. rewrite Hy, Hloop, <- !app_assoc.
    split; [done|]. split; [by rewrite Hlen|].
    intros [|i] x' Hi; simpl in *.
    + injection Hi as <-. exists y. by rewrite app_nil_r.
    + destruct (HR i x' Hi) as (y' & Hy1 & Hy2).
      exists y'. split; [done|]. by rewrite <- app_assoc in Hy2.
Qed.

(** X14. [map] applies the transform in ascending index order, each
    application after those at the lower indices: when the join fulfils
    with [xs] and no application raises, the result at index [i] is what the
    transform returned for [xs[i]] after having been applied to
    [xs[0]], ..., [xs[i-1]], also for a transform whose answers depend on
    what it was applied to before. *)
Theorem map_applies_in_index_order
    (entries xs : list value) (f : nat) (label : value) (history : list value) (t : nat) :
  all entries label = Fulfilled t (VArray xs) →
  (∀ i x, xs !! i = Some x → ∃ y, call f (history ++ take i xs) x = Normal y) →
  ∃ R, map (VArray entries) (VFunction f) label history
       = (Normal (Fulfilled t (VArray R)), history ++ xs) ∧
    length R = length xs ∧
    ∀ i x, xs !! i = Some x →
      ∃ y, R !! i = Some y ∧ call f (history ++ take i xs) x = Normal y.
Proof.
  intros Hall Hcalls.
  destruct (map_loop_in_order f xs [] history Hcalls) as (R & Hloop & Hlen & HR).
  exists R. rewrite map_unfold, Hall. simpl. by rewrite Hloop.
Qed.

(** ** [filter]: when nothing is kept at once *)

Lemma filter_loop_all_later f xs :
  ∀ filteredResults hasPromises history,
  Forall (λ x, instanceof_FilterResult x = false) xs →
  (∀ i x, xs !! i = Some x →
     ∃ answer, call f (history ++ take i xs) x = Normal answer ∧
               (truthy answer = false ∨ ∃ s, answer = VPromise s)) →
  ∃ new hasPromises',
    filter_loop f xs filteredResults hasPromises history
    = (Normal (filteredResults ++ new, hasPromises'), history ++ xs) ∧
    Forall (λ entry, ∃ answer x, entry = marker_future answer x) new.
Proof.
  induction xs as [|x xs IH]; intros acc hp h Hm Hcalls.
  - exists [], hp. simpl. rewrite !app_nil_r. by split.
  - apply Forall_cons in Hm as [Hx Hm].
    destruct (Hcalls 0%nat x eq_refl) as (a & Ha & Hkind).
    simpl in Ha. rewrite app_nil_r in Ha.
    assert (∀ acc' hp', ∃ new hp'',
              filter_loop f xs acc' hp' (h ++ [x])
              = (Normal (acc' ++ new, hp''), h ++ x :: xs) ∧
              Forall (λ entry, ∃ answer x, entry = marker_future answer x) new)
      as Hrest.
    { intros acc' hp'. destruct (IH acc' hp' (h ++ [x])) as (new & hp'' & Hloop & Hnew).
      - done.
      - intros i x' Hi. destruct (Hcalls (S i) x' Hi) as (a' & Ha' & Hkind').
        exists a'. simpl in Ha'. by rewrite <- app_assoc.
      - exists new, hp''. by rewrite Hloop, <- app_assoc. }
    destruct Hkind as [Hfalsy|[s ->]].
    + rewrite (filter_loop_drop f x _ _ _ _ a) by done. apply Hrest.
    + rewrite (filter_loop_promise f x _ _ _ _ (VPromise s) s)
        by (done || right; by eexists).
      destruct (Hrest (acc ++ [marker_future (VPromise s) x]) true)
        as (new & hp'' & -> & Hnew).
      exists (marker_future (VPromise s) x :: new), hp''. rewrite <- app_assoc.
      split; [done|]. constructor; [eauto|done].
Qed.

Lemma filter_loop_markers_only f results :
  ∀ filteredResults hasPromises history,
  Forall (λ r, instanceof_FilterResult r = true) results →
  ∃ out, filter_loop f results filteredResults hasPromises history
         = (Normal (out, hasPromises), history).
Proof.
  induction results as [|r results IH]; intros acc hp h Hm; [by eexists|].
  apply Forall_cons in Hm as [Hr Hm].
  apply instanceof_FilterResult_inv in Hr as (o & flag & ->).
  rewrite filter_loop_marker. by apply IH.
Qed.

(** X15. Whatever the predicate, with memory or without: when the join
    fulfils with [xs] and the predicate answers every item either with a
    falsy value or with a promise of the library, [filter] returns after
    calling itself at
    most once, and the predicate has been applied to the items of [xs] once
    each and to nothing else. Only items kept at once are ever asked
    again. *)
Theorem filter_future_answers_ask_once
    (fuel : nat) (entries : list value) (f : nat) (label : value) (lg : RSVP.log)
    (t0 : nat) (xs : list value) :
  all entries label = Fulfilled t0 (VArray xs) →
  Forall (λ x, instanceof_FilterResult x = false) xs →
  (∀ i x, xs !! i = Some x →
     ∃ answer, call f (RSVP.calls lg ++ take i xs) x = Normal answer ∧
               (truthy answer = false ∨ ∃ s, answer = VPromise s)) →
  ∃ s n,
    filter (S fuel) (VArray entries) (VFunction f) label lg
    = Some (Normal s, RSVP.Log (RSVP.calls lg ++ xs) n) ∧
    (n ≤ S (RSVP.recursions lg))%nat.
Proof.
  intros Hall Hm Hcalls.
  destruct (filter_loop_all_later f xs [] false (RSVP.calls lg) Hm Hcalls)
    as (new & hp & Hloop & Hnew).
  rewrite (filter_fulfilled _ _ _ _ _ _ _ Hall), Hloop. cbn [app].
  destruct hp; [|eexists _, _; split; [done|lia]].
  destruct (all new label) as [|t1 v1|t1 r1] eqn:Hall1.
  1,3: rewrite filter_not_fulfilled by (by rewrite Hall1);
    eexists _, _; split; [done|lia].
  destruct (all_fulfilled_inv _ _ _ _ Hall1) as (results & -> & Hjoined).
  rewrite (filter_fulfilled _ _ _ _ _ _ _ Hall1). cbn [RSVP.calls RSVP.recursions].
  destruct (filter_loop_markers_only f results [] false (RSVP.calls lg ++ xs))
    as [out ->].
  - clear -Hnew Hjoined.
    induction Hjoined as [|e r es rs [t' Her] _ IH]; [constructor|].
    apply Forall_cons in Hnew as [(a & x & ->) Hnew].
    constructor; [|by apply IH].
    rewrite awaited_marker_future in Her.
    destruct (awaited a); try done. by injection Her as _ <-.
  - eexists _, _. split; [done|lia].
Qed.

End Properties.

(** ** A predicate with memory *)



(** ** A predicate that answers with hand-made thenables *)

(** [filter(["x"], x => x === "x" ? { then: function(ok) { ok(true); } } : true)],
    the hand-made [then] returning [undefined]: the pass stores what [then]
    returned in place of the item, and the next pass submits that to the
    predicate. *)
Example filter_hand_made_then :
  RSVP.filter call_hand_made_for_x never_settles then_returns_undefined 1
    (VArray [VString "x"]) (VFunction 1) VUndefined RSVP.empty_log
  = Some (Normal (Fulfilled 0 (VArray [VUndefined])),
          RSVP.Log [VString "x"; VUndefined] 1).
Proof. reflexivity. Qed.

(** [filter([1, 2], x => { if (x === 2) throw "two"; return thenable; })]
    when the [then] of the thenable raises: the error of [then] comes
    first, and the predicate is never applied to [2]. *)
Example filter_then_error_comes_first :
  RSVP.filter call_thenable_or_throw never_settles then_raises 0
    (VArray [VNumber 1; VNumber 2]) (VFunction 1) VUndefined RSVP.empty_log
  = Some (Normal (Rejected 0 (VString "no")), RSVP.Log [VNumber 1] 0).
Proof. reflexivity. Qed.

Lemma filter_hand_made_keeps_recursing (fuel : nat) :
  ∀ (h : list value) (n : nat) (label : value),
  RSVP.filter call_hand_made never_settles then_returns_undefined fuel
    (VArray [VUndefined]) (VFunction 1) label (RSVP.Log h n)
  = None.
Proof.
  induction fuel as [|fuel IH]; intros h n label.
  - by rewrite (filter_fulfilled _ _ _ _ _ _ _ _ 0%nat [VUndefined]).
  - rewrite (filter_fulfilled _ _ _ _ _ _ _ _ 0%nat [VUndefined]) by done.
    simpl RSVP.filter_loop. cbn [app RSVP.calls RSVP.recursions].
    by rewrite IH.
Qed.

(** A predicate without memory that answers every item with a hand-made
    thenable whose [then] returns no future keeps [filter] calling itself:
    each pass stores what [then] returned, and the next pass submits it to
    the predicate, which answers with a thenable again. *)
Lemma filter_hand_made_answers_recurse_for_ever :
  ¬ ∃ fuel result,
      RSVP.filter call_hand_made never_settles then_returns_undefined fuel
        (VArray [VString "x"]) (VFunction 1) VUndefined RSVP.empty_log
      = Some result.
Proof.
  intros (fuel & result & H).
  rewrite (filter_fulfilled _ _ _ _ _ _ _ _ 0%nat [VString "x"]) in H by done.
  simpl RSVP.filter_loop in H.
  cbn [app RSVP.calls RSVP.recursions RSVP.empty_log] in H.
  destruct fuel as [|fuel]; [done|].
  by rewrite filter_hand_made_keeps_recursing in H.
Qed.

(** ** A mapping with a key [then] *)


(** ** The examples of the documentation *)

(** [filter([1, 2, 3], x => x > 1)]: "result is [ 2, 3 ]", in one pass. *)
Example filter_greater_than_one :
  RSVP.filter call_greater_than_one never_settles then_returns_undefined 0
    (VArray [VPromise (Fulfilled 1 (VNumber 1)); VPromise (Fulfilled 1 (VNumber 2));
             VPromise (Fulfilled 1 (VNumber 3))])
    (VFunction 1) VUndefined RSVP.empty_log
  = Some (Normal (Fulfilled 1 (VArray [VNumber 2; VNumber 3])),
          RSVP.Log [VNumber 1; VNumber 2; VNumber 3] 0).
Proof. reflexivity. Qed.

(** [hash({myPromise: resolve(1), yourPromise: resolve(2)})], the second
    future settling first. *)
Example hash_of_two_promises :
  RSVP.outcome
    (RSVP.hash never_settles
       (<["myPromise" := VPromise (Fulfilled 2 (VNumber 1))]>
          (<["yourPromise" := VPromise (Fulfilled 1 (VNumber 2))]> ∅))
       VUndefined ["yourPromise"; "myPromise"])
  = RSVP.FulfilledWith (<["myPromise" := VNumber 1]> (<["yourPromise" := VNumber 2]> ∅)).
Proof. vm_compute. reflexivity. Qed.

(** While a future among the entries is pending, so is the result. *)
Example hash_waits :
  RSVP.outcome
    (RSVP.hash never_settles
       (<["a" := VPromise Pending]> (<["b" := VNumber 2]> ∅)) VUndefined [])
  = RSVP.StillPending.
Proof. vm_compute. reflexivity. Qed.

(** ** The properties at concrete inputs *)

(** Splits a membership in a list of literals into its cases. *)
Ltac in_literals H :=
  repeat (apply elem_of_cons in H as [->|H]); [..|by apply elem_of_nil in H].

(** Closes [Forall plain_value] over a list of literals. *)
Ltac plain_values :=
  repeat (apply Forall_cons; split; [by split|]); by apply Forall_nil.

(** Closes [Forall user_entry] over a list of literals. *)
Ltac user_entries :=
  repeat (apply Forall_cons; split;
            [let H := fresh in intros ? ? H; cbv in H; injection H as <- <-; by split|]);
  by apply Forall_nil.

(** [filter(["alice", "bob"], asyncCheck)] fulfils with [["alice"]] after one
    recursion and two applications of the predicate. *)
Lemma filter_two_items_predicate_futures_witness :
  ∃ t, RSVP.filter call_async_check never_settles then_returns_undefined 1
         (VArray [VString "alice"; VString "bob"]) (VFunction 1) VUndefined RSVP.empty_log
       = Some (Normal (Fulfilled t (VArray [VString "alice"])),
               RSVP.Log [VString "alice"; VString "bob"] 1).
Proof.
  apply (filter_two_items_predicate_futures
           call_async_check never_settles then_returns_undefined
           (VString "alice") (VString "bob")
           1%nat 2%nat 1%nat VUndefined 0%nat); reflexivity.
Defined.

Lemma answer_checks_library x : library_answer never_settles (answer_checks x).
Proof.
  unfold answer_checks. repeat case_match; (by left) || (right; by eexists).
Qed.


(** [map([1, reject("2"), reject("3")], f)] rejects with ["2"], and
    [hash({a: 1, b: reject("boom")})] with ["boom"], whatever settles next. *)
Lemma first_failure_rejects_with_its_reason_witness :
  RSVP.map call_greater_than_one never_settles
    (VArray [VNumber 1; VPromise (Rejected 4 (VString "2")); VPromise (Rejected 4 (VString "3"))])
    (VFunction 1) VUndefined []
  = (Normal (Rejected 4 (VString "2")), []) ∧
  RSVP.outcome
    (RSVP.hash never_settles
       (<["a" := VNumber 1]> (<["b" := VPromise (Rejected 0 (VString "boom"))]> ∅))
       VUndefined ([] ++ "b" :: ["a"; "b"]))
  = RSVP.RejectedWith (VString "boom").
Proof.
  destruct (first_failure_rejects_with_its_reason call_greater_than_one never_settles then_returns_undefined)
    as [Hcollection Hhash].
  split.
  - apply (Hcollection
             [VNumber 1; VPromise (Rejected 4 (VString "2"));
              VPromise (Rejected 4 (VString "3"))]
             1%nat (VPromise (Rejected 4 (VString "2"))) 4%nat (VString "2")
             1%nat VUndefined [] 0%nat RSVP.empty_log); [reflexivity|reflexivity|].
    intros [|[|[|j]]] entry' t' r' Hj Hentry' Hne; simpl in Hj; try done.
    + injection Hj as <-. discriminate Hentry'.
    + injection Hj as <-. injection Hentry' as <- <-. right. split; [done|lia].
  - apply (Hhash _ VUndefined [] "b" ["a"; "b"]
             (VPromise (Rejected 0 (VString "boom"))) 0%nat (VString "boom")).
    + reflexivity.
    + reflexivity.
    + apply NoDup_singleton.
    + intros k' entry' t' r' Hk'. by apply elem_of_nil in Hk'.
Defined.


(** [map([1, 2, 3], x => x > 1)]. *)
Lemma map_plain_values_pure_transform_witness :
  ∃ R, RSVP.map call_greater_than_one never_settles
         (VArray [VNumber 1; VNumber 2; VNumber 3]) (VFunction 1) VUndefined []
       = (Normal (Fulfilled 0 (VArray R)), [] ++ [VNumber 1; VNumber 2; VNumber 3])
     ∧ length R = 3%nat
     ∧ ∀ i x, [VNumber 1; VNumber 2; VNumber 3] !! i = Some x →
              R !! i = Some (match x with
                             | VNumber n => VBoolean (1 <? n)
                             | _ => VBoolean false
                             end).
Proof.
  apply (map_plain_values_pure_transform call_greater_than_one never_settles
           [VNumber 1; VNumber 2; VNumber 3] 1%nat
           (λ x, match x with
                 | VNumber n => VBoolean (1 <? n)
                 | _ => VBoolean false
                 end)
           VUndefined []).
  - repeat constructor.
  - intros h x _. by destruct x.
Defined.

(** [map(3, f)] and [filter(3, f)] raise. *)
Lemma map_filter_invalid_arguments_throw_witness :
  (∃ message, RSVP.map call_undefined never_settles (VNumber 3) (VFunction 1) VUndefined []
              = (Throw (VTypeError message), [])) ∧
  (∃ message, RSVP.filter call_undefined never_settles then_returns_undefined 0 (VNumber 3) (VFunction 1) VUndefined
                RSVP.empty_log
              = Some (Throw (VTypeError message), RSVP.empty_log)).
Proof.
  apply (map_filter_invalid_arguments_throw call_undefined never_settles then_returns_undefined
           (VNumber 3) (VFunction 1) VUndefined [] 0%nat RSVP.empty_log).
  left. reflexivity.
Defined.

(** [map([1, 2, 3], x => { if (x === 2) throw "two"; return x; })]. *)
Lemma map_transform_error_rejects_witness :
  RSVP.map call_throw_on_two never_settles
    (VArray [VNumber 1; VNumber 2; VNumber 3]) (VFunction 1) VUndefined []
  = (Normal (Rejected 0 (VString "two")), [] ++ [VNumber 1] ++ [VNumber 2]).
Proof.
  apply (map_transform_error_rejects call_throw_on_two never_settles
           [VNumber 1; VNumber 2; VNumber 3] 1%nat VUndefined [] 0%nat
           [VNumber 1] [VNumber 3] (VNumber 2) (VString "two")).
  - reflexivity.
  - intros [|j] y Hj; [|done]. injection Hj as <-. by eexists.
  - reflexivity.
Defined.

(** Items [1, 2, resolve(3), 7] and a predicate that keeps [1] at once,
    answers [2] with a promise of the library and [3] with a hand-made
    thenable whose [then] returns the marker itself: after one recursion
    the result is [[1, 2, 3]], the markers of [2] and [3] having been
    replaced by their items. *)
Lemma filter_result_has_no_marker_witness :
  ∃ out results t0,
    VArray [VNumber 1; VNumber 2; VNumber 3] = VArray out ∧
    Forall (λ x, instanceof_FilterResult x = false) out ∧
    RSVP.all never_settles
      [VNumber 1; VNumber 2; VPromise (Fulfilled 4 (VNumber 3)); VNumber 7] VUndefined
    = Fulfilled t0 (VArray results) ∧
    (answers_of_library never_settles call_mixed 1 → sublist out results).
Proof.
  apply (filter_result_has_no_marker call_mixed never_settles then_calls_back 1%nat
           [VNumber 1; VNumber 2; VPromise (Fulfilled 4 (VNumber 3)); VNumber 7]
           1%nat VUndefined RSVP.empty_log
           (RSVP.Log [VNumber 1; VNumber 2; VNumber 3; VNumber 7; VNumber 1] 1) 4%nat
           (VArray [VNumber 1; VNumber 2; VNumber 3])).
  - user_entries.
  - intros g history promise x entry Hx [= <-] t r [= _ <-]. exact Hx.
  - reflexivity.
Defined.


(** ** The further properties at concrete inputs *)

(** [filter([1, 2, resolve(3)], x => x > 1)]. *)
Lemma filter_plain_answers_select_witness :
  RSVP.filter call_greater_than_one never_settles then_returns_undefined 0
    (VArray [VNumber 1; VNumber 2; VPromise (Fulfilled 2 (VNumber 3))])
    (VFunction 1) VUndefined RSVP.empty_log
  = Some (Normal (Fulfilled 2 (VArray [VNumber 2; VNumber 3])),
          RSVP.Log [VNumber 1; VNumber 2; VNumber 3] 0).
Proof.
  apply (filter_plain_answers_select call_greater_than_one never_settles then_returns_undefined 0%nat
           [VNumber 1; VNumber 2; VPromise (Fulfilled 2 (VNumber 3))] 1%nat
           (λ x, match x with
                 | VNumber n => VBoolean (1 <? n)
                 | _ => VBoolean false
                 end)
           VUndefined RSVP.empty_log 2%nat [VNumber 1; VNumber 2; VNumber 3]).
  - reflexivity.
  - repeat constructor.
  - intros h x _. by destruct x.
  - intros x _. by destruct x.
Defined.

(** [filter([1, 2, 3], x => { if (x === 2) throw "two"; return x; })]. *)
Lemma filter_predicate_error_rejects_witness :
  RSVP.filter call_throw_on_two never_settles then_returns_undefined 0
    (VArray [VNumber 1; VNumber 2; VNumber 3]) (VFunction 1) VUndefined RSVP.empty_log
  = Some (Normal (Rejected 0 (VString "two")),
          RSVP.Log ([] ++ [VNumber 1] ++ [VNumber 2]) 0).
Proof.
  apply (filter_predicate_error_rejects call_throw_on_two never_settles then_returns_undefined 0%nat
           [VNumber 1; VNumber 2; VNumber 3] 1%nat VUndefined RSVP.empty_log 0%nat
           [VNumber 1] [VNumber 3] (VNumber 2) (VString "two")).
  - reflexivity.
  - repeat constructor.
  - intros [|j] y Hj; [|done]. injection Hj as <-.
    exists (VNumber 1). split; [reflexivity|]. by intros s.
  - reflexivity.
Defined.

(** Items [1, 3, 7]: the answer for [3] is a hand-made thenable, whose
    [then] raises. *)
Lemma filter_answer_then_error_rejects_witness :
  RSVP.filter call_mixed never_settles then_raises 0
    (VArray [VNumber 1; VNumber 3; VNumber 7]) (VFunction 1) VUndefined RSVP.empty_log
  = Some (Normal (Rejected 0 (VString "no")),
          RSVP.Log ([] ++ [VNumber 1] ++ [VNumber 3]) 0).
Proof.
  apply (filter_answer_then_error_rejects call_mixed never_settles then_raises 0%nat
           [VNumber 1; VNumber 3; VNumber 7] 1%nat VUndefined RSVP.empty_log 0%nat
           [VNumber 1] [VNumber 7] (VNumber 3) (VString "no")
           [("then", VFunction 1)] 1%nat).
  - reflexivity.
  - repeat constructor.
  - intros [|j] y Hj; [|done]. injection Hj as <-.
    exists (VBoolean true). split; [reflexivity|]. by intros s.
  - reflexivity.
  - reflexivity.
  - reflexivity.
Defined.

(** Items [1, 2, 3, 7]: [1] is kept at once and asked again, [2] is kept by
    its future, [3] and [7] are left out. *)
Lemma filter_future_answers_select_witness :
  ∃ t, RSVP.filter call_checks never_settles then_returns_undefined 1
         (VArray [VNumber 1; VNumber 2; VNumber 3; VNumber 7])
         (VFunction 1) VUndefined RSVP.empty_log
       = Some (Normal (Fulfilled t (VArray [VNumber 1; VNumber 2])),
               RSVP.Log ([] ++ [VNumber 1; VNumber 2; VNumber 3; VNumber 7] ++ [VNumber 1])
                 1).
Proof.
  apply (filter_future_answers_select call_checks never_settles then_returns_undefined 0%nat
           [VNumber 1; VNumber 2; VNumber 3; VNumber 7] 1%nat answer_checks
           VUndefined RSVP.empty_log 0%nat
           [VNumber 1; VNumber 2; VNumber 3; VNumber 7]).
  - reflexivity.
  - plain_values.
  - reflexivity.
  - intros x _. apply answer_checks_library.
  - intros x s Hx Hs. in_literals Hx; cbv in Hs; try discriminate;
      injection Hs as <-; eauto.
  - reflexivity.
Defined.

(** Items [1, 4, 5]: the check of [4] is refused first. *)
Lemma filter_answer_rejection_rejects_witness :
  RSVP.filter call_checks never_settles then_returns_undefined 1
    (VArray [VNumber 1; VNumber 4; VNumber 5]) (VFunction 1) VUndefined RSVP.empty_log
  = Some (Normal (Rejected (Nat.max 0 3) (VString "denied")),
          RSVP.Log ([] ++ [VNumber 1; VNumber 4; VNumber 5]) 1).
Proof.
  apply (filter_answer_rejection_rejects call_checks never_settles then_returns_undefined 0%nat
           [VNumber 1; VNumber 4; VNumber 5] 1%nat answer_checks
           VUndefined RSVP.empty_log 0%nat [VNumber 1; VNumber 4; VNumber 5]
           (VNumber 4) 3%nat (VString "denied")).
  - reflexivity.
  - plain_values.
  - reflexivity.
  - intros x _. apply answer_checks_library.
  - set_solver.
  - reflexivity.
  - intros x t' r' Hx Hs. in_literals Hx; cbv in Hs; try discriminate;
      injection Hs as <- <-; [by right|left; lia].
Defined.

(** Items [1, 2, 6]: the check of [6] never completes. *)
Lemma filter_answer_pending_waits_witness :
  RSVP.filter call_checks never_settles then_returns_undefined 1
    (VArray [VNumber 1; VNumber 2; VNumber 6]) (VFunction 1) VUndefined RSVP.empty_log
  = Some (Normal Pending, RSVP.Log ([] ++ [VNumber 1; VNumber 2; VNumber 6]) 1).
Proof.
  apply (filter_answer_pending_waits call_checks never_settles then_returns_undefined 0%nat
           [VNumber 1; VNumber 2; VNumber 6] 1%nat answer_checks
           VUndefined RSVP.empty_log 0%nat [VNumber 1; VNumber 2; VNumber 6]
           (VNumber 6)).
  - reflexivity.
  - plain_values.
  - reflexivity.
  - intros x _. apply answer_checks_library.
  - set_solver.
  - reflexivity.
  - intros x t r Hx Hs. in_literals Hx; cbv in Hs; discriminate.
Defined.

(** [map([resolve(3), 1], x => x > 1)]. *)
Lemma map_resolved_entries_witness :
  ∃ t, RSVP.map call_greater_than_one never_settles
         (VArray [VPromise (Fulfilled 2 (VNumber 3)); VNumber 1]) (VFunction 1) VUndefined []
       = (Normal (Fulfilled t
                    (VArray ((λ x, match x with
                                   | VNumber n => VBoolean (1 <? n)
                                   | _ => VBoolean false
                                   end) <$> [VNumber 3; VNumber 1]))),
          [] ++ [VNumber 3; VNumber 1]).
Proof.
  apply (map_resolved_entries call_greater_than_one never_settles
           [VPromise (Fulfilled 2 (VNumber 3)); VNumber 1] [VNumber 3; VNumber 1] 1%nat
           (λ x, match x with
                 | VNumber n => VBoolean (1 <? n)
                 | _ => VBoolean false
                 end)
           VUndefined []).
  - repeat constructor; by eexists.
  - intros h x _. by destruct x.
Defined.

(** [map([1, pending], f)] and [filter([1, pending], f)]. *)
Lemma pending_entry_blocks_map_and_filter_witness :
  RSVP.map call_greater_than_one never_settles
    (VArray [VNumber 1; VPromise Pending]) (VFunction 1) VUndefined []
  = (Normal Pending, []) ∧
  RSVP.filter call_greater_than_one never_settles then_returns_undefined 0
    (VArray [VNumber 1; VPromise Pending]) (VFunction 1) VUndefined RSVP.empty_log
  = Some (Normal Pending, RSVP.empty_log).
Proof.
  apply (pending_entry_blocks_map_and_filter call_greater_than_one never_settles then_returns_undefined
           [VNumber 1; VPromise Pending] (VPromise Pending) 1%nat VUndefined []
           0%nat RSVP.empty_log).
  - set_solver.
  - reflexivity.
  - intros entry' t r Hin Hr. in_literals Hin; discriminate.
Defined.

(** [map(map([1, 2], x => resolve(x)), x => [x])]. *)
Lemma map_of_map_witness :
  ∃ R t,
    RSVP.map call_two_stages never_settles (VArray [VNumber 1; VNumber 2])
      (VFunction 1) VUndefined []
    = (Normal (Fulfilled 0 (VArray R)), [] ++ [VNumber 1; VNumber 2]) ∧
    RSVP.map call_two_stages never_settles (VArray R) (VFunction 2) VUndefined []
    = (Normal (Fulfilled t
                 (VArray ((λ x, VArray [resolved_value never_settles
                                          (VPromise (Fulfilled 1 x))])
                            <$> [VNumber 1; VNumber 2]))),
       [] ++ ((λ x, resolved_value never_settles (VPromise (Fulfilled 1 x)))
                <$> [VNumber 1; VNumber 2])).
Proof.
  apply (map_of_map call_two_stages never_settles [VNumber 1; VNumber 2] 1%nat 2%nat
           (λ x, VPromise (Fulfilled 1 x)) (λ y, VArray [y]) VUndefined [] []).
  - repeat constructor.
  - reflexivity.
  - intros x s _ [= <-]. eauto.
  - reflexivity.
Defined.

(** [filter(filter([1, 2, 3], x => x > 1), x => x > 1)]. *)
Lemma filter_twice_same_witness :
  ∃ ys,
    RSVP.filter call_greater_than_one never_settles then_returns_undefined 0
      (VArray [VNumber 1; VNumber 2; VNumber 3]) (VFunction 1) VUndefined RSVP.empty_log
    = Some (Normal (Fulfilled 0 (VArray ys)),
            RSVP.Log ([] ++ [VNumber 1; VNumber 2; VNumber 3]) 0) ∧
    RSVP.filter call_greater_than_one never_settles then_returns_undefined 0
      (VArray ys) (VFunction 1) VUndefined RSVP.empty_log
    = Some (Normal (Fulfilled 0 (VArray ys)), RSVP.Log ([] ++ ys) 0).
Proof.
  apply (filter_twice_same call_greater_than_one never_settles then_returns_undefined 0%nat 1%nat
           (λ x, match x with
                 | VNumber n => VBoolean (1 <? n)
                 | _ => VBoolean false
                 end)
           VUndefined RSVP.empty_log RSVP.empty_log [VNumber 1; VNumber 2; VNumber 3]).
  - plain_values.
  - intros h x _. by destruct x.
  - intros x _. by destruct x.
Defined.



(** [hash({then: f, a: 1})]: [resolve] is given the mapping, and the
    returned future follows its [then], which never calls back. *)
Lemma hash_of_plain_values_witness :
  RSVP.outcome (RSVP.hash never_settles then_and_a VUndefined ["a"])
  = RSVP.FulfilledWith then_and_a ∧
  RSVP.observed never_settles then_and_a VUndefined ["a"] = RSVP.Unsettled.
Proof.
  apply (hash_of_plain_values never_settles then_and_a VUndefined ["a"]).
  intros k v Hk. unfold then_and_a in Hk.
  apply lookup_insert_Some in Hk as [[_ <-]|[_ Hk]]; [done|].
  apply lookup_insert_Some in Hk as [[_ <-]|[_ Hk]]; [done|].
  by rewrite lookup_empty in Hk.
Defined.

(** [map([1, 2], f)] for the function with memory that returns [true] the
    first time and a future afterwards. *)
Lemma map_applies_in_index_order_witness :
  ∃ R, RSVP.map call_plain_then_future never_settles (VArray [VNumber 1; VNumber 2])
         (VFunction 1) VUndefined []
       = (Normal (Fulfilled 0 (VArray R)), [] ++ [VNumber 1; VNumber 2]) ∧
    length R = length [VNumber 1; VNumber 2] ∧
    ∀ i x, [VNumber 1; VNumber 2] !! i = Some x →
      ∃ y, R !! i = Some y ∧
        call_plain_then_future 1 ([] ++ take i [VNumber 1; VNumber 2]) x = Normal y.
Proof.
  apply (map_applies_in_index_order call_plain_then_future never_settles
           [VNumber 1; VNumber 2] [VNumber 1; VNumber 2] 1%nat VUndefined [] 0%nat).
  - reflexivity.
  - intros [|[|i]] x Hi; [by eexists|by eexists|done].
Defined.

(** [filter(["alice", "bob"], asyncCheck)]: two applications, one recursion. *)
Lemma filter_future_answers_ask_once_witness :
  ∃ s n,
    RSVP.filter call_async_check never_settles then_returns_undefined 1
      (VArray [VString "alice"; VString "bob"]) (VFunction 1) VUndefined RSVP.empty_log
    = Some (Normal s, RSVP.Log ([] ++ [VString "alice"; VString "bob"]) n) ∧
    (n ≤ 1)%nat.
Proof.
  apply (filter_future_answers_ask_once call_async_check never_settles then_returns_undefined 0%nat
           [VString "alice"; VString "bob"] 1%nat VUndefined RSVP.empty_log 0%nat
           [VString "alice"; VString "bob"]).
  - reflexivity.
  - repeat constructor.
  - intros [|[|i]] x Hi; [| |done]; injection Hi as <-;
      eexists; (split; [reflexivity|right; by eexists]).
Defined.
